(** * Tic-tac-toe on bitboards: board state, status evaluation, alpha-beta
    search and the bot's move selection (src/main.cpp).

    The C++ types are embedded as follows.
    - [Bitboard] is [uint16_t]: a [Z] in [0, 2^16); every store into a
      [Bitboard] goes through [u16], the truncation to 16 bits.
    - Arithmetic on bitboards happens after integer promotion to [int];
      [~x] is [Z.lnot x], which agrees with two's complement on every width
      once the result is masked, as the source always does.
    - [int] scores, bounds and depths are unbounded [Z]: in a search started
      by the bot the bounds are -100, 100 or a score, the scores lie between
      -1 and 10 and the depth between 0 and 9, far from the limits of [int].
      The sums, differences and negations of the source are those of [Z]
      only as long as operands and results are values of [int] ([in_int]);
      outside of it the C++ arithmetic overflows.  A statement about a value
      computed from an arbitrary [int] argument therefore carries that
      range as a hypothesis.
    - The board is passed by reference and mutated in place; the search
      functions therefore take a board and return the board they leave
      behind together with their result.
    - Recursion in [alphabeta] is bounded by a fuel argument; running out of
      fuel is [None]. *)

From Stdlib Require Import ZArith List Bool Lia String Ascii.
Import ListNotations.
Local Open Scope Z_scope.

(** ** Machine integers *)

(** Value of a binary literal, written as the source writes it. *)
Fixpoint bin_acc (s : string) (acc : Z) : Z :=
  match s with
  | EmptyString => acc
  | String c s' =>
      bin_acc s' (2 * acc + (if Ascii.eqb c "1"%char then 1 else 0))
  end.

Definition bin (s : string) : Z := bin_acc s 0.

(** Conversion to [uint16_t]. *)
Definition u16 (x : Z) : Z := Z.land x (Z.ones 16).

(** The values of [int]: 32 bits, two's complement. *)
Definition int_min : Z := -2147483648.

Definition int_max : Z := 2147483647.

Definition in_int (x : Z) : Prop := int_min <= x <= int_max.

(** [_blsr_u64]: reset the lowest set bit. *)
Definition blsr (x : Z) : Z := Z.land x (x - 1).

(** [_blsi_u64]: isolate the lowest set bit. *)
Definition blsi (x : Z) : Z := Z.land x (- x).

(** [std::popcount] on a 16-bit value. *)
Definition bit_positions : list Z := map Z.of_nat (seq 0 16).

Definition popcount (x : Z) : Z :=
  Z.of_nat (List.length (filter (Z.testbit x) bit_positions)).

(** [bitloop(X)]: [for (; X; X = _blsr_u64(X))].  The loop variable is a
    [Bitboard] that the loop bodies only read through [_blsi_u64], so the
    loop is the traversal of the list of isolated bits.  A 16-bit value has
    at most 16 set bits; [bitloop_fuel] counts the iterations. *)
Fixpoint bitloop_fuel (n : nat) (x : Z) : list Z :=
  match n with
  | O => []
  | S n' =>
      if x =? 0 then []
      else u16 (blsi x) :: bitloop_fuel n' (u16 (blsr x))
  end.

Definition bitloop (x : Z) : list Z := bitloop_fuel 16 x.

(** ** Board *)

Inductive GameStatus : Type :=
| IN_PROGRESS
| DRAW
| CIRCLE_WON
| CROSS_WON.

Record Board : Type := mkBoard {
  cross : Z;
  circle : Z;
  cross_to_move : bool
}.

(** [Board{.cross = 0, .circle = 0, .cross_to_move = true}] of [main]. *)
Definition empty_board : Board := mkBoard 0 0 true.

Definition get_legal_moves (b : Board) : Z :=
  u16 (Z.land (Z.lnot (Z.lor (cross b) (circle b))) (bin "111111111")).

Definition make_move (b : Board) (move : Z) : Board :=
  if cross_to_move b
  then mkBoard (u16 (Z.lxor (cross b) move)) (circle b) (negb (cross_to_move b))
  else mkBoard (cross b) (u16 (Z.lxor (circle b) move)) (negb (cross_to_move b)).

Definition unmake_move (b : Board) (move : Z) : Board :=
  if negb (cross_to_move b)
  then mkBoard (u16 (Z.lxor (cross b) move)) (circle b) (negb (cross_to_move b))
  else mkBoard (cross b) (u16 (Z.lxor (circle b) move)) (negb (cross_to_move b)).

Definition winning_patterns : list Z :=
  [ bin "111000000"   (* top row *)
  ; bin "000111000"   (* middle row *)
  ; bin "000000111"   (* bottom row *)
  ; bin "100100100"   (* left column *)
  ; bin "010010010"   (* middle column *)
  ; bin "001001001"   (* right column *)
  ; bin "100010001"   (* diagonal *)
  ; bin "001010100"   (* antidiagonal *)
  ].

(** First loop of [check_status]: the first pattern owned by a side decides,
    cross being tested before circle on each pattern. *)
Fixpoint first_win (cr ci : Z) (ps : list Z) : option GameStatus :=
  match ps with
  | [] => None
  | pattern :: ps' =>
      if Z.land cr pattern =? pattern then Some CROSS_WON
      else if Z.land ci pattern =? pattern then Some CIRCLE_WON
      else first_win cr ci ps'
  end.

(** Second loop of [check_status]: the [winnable] flag. *)
Fixpoint winnable_loop (cr ci : Z) (ps : list Z) (winnable : bool) : bool :=
  match ps with
  | [] => winnable
  | pattern :: ps' =>
      let w1 :=
        if Z.land (Z.lor cr (Z.lnot ci)) pattern =? pattern
        then true else winnable in
      let w2 :=
        if Z.land (Z.lor ci (Z.lnot cr)) pattern =? pattern
        then true else w1 in
      winnable_loop cr ci ps' w2
  end.

Definition check_status (b : Board) : GameStatus :=
  match first_win (cross b) (circle b) winning_patterns with
  | Some s => s
  | None =>
      if winnable_loop (cross b) (circle b) winning_patterns false
      then IN_PROGRESS
      else DRAW
  end.

(** ** Alpha-beta search *)

(** The [bitloop] of [alphabeta] over the remaining moves, given the
    recursive call [rec]; [None] is fuel exhaustion below. *)
Fixpoint alphabeta_loop
    (rec : Board -> Z -> Z -> Z -> option (Board * Z))
    (moves : list Z) (board : Board) (alpha beta depth : Z)
    : option (Board * Z) :=
  match moves with
  | [] => Some (board, alpha)
  | move_bb :: rest =>
      let board1 := make_move board move_bb in
      match rec board1 (- beta) (- alpha) (depth + 1) with
      | None => None
      | Some (board2, v) =>
          let score := - v in
          let board3 := unmake_move board2 move_bb in
          if score >=? beta then Some (board3, beta)
          else
            let alpha' := if score >? alpha then score else alpha in
            alphabeta_loop rec rest board3 alpha' beta depth
      end
  end.

Fixpoint alphabeta (fuel : nat) (board : Board) (alpha beta depth : Z)
    : option (Board * Z) :=
  match check_status board with
  | DRAW => Some (board, 0)
  | CIRCLE_WON =>
      if cross_to_move board then Some (board, -1)
      else Some (board, 10 - depth)
  | CROSS_WON =>
      if cross_to_move board then Some (board, 10 - depth)
      else Some (board, -1)
  | IN_PROGRESS =>
      match fuel with
      | O => None
      | S fuel' =>
          alphabeta_loop (alphabeta fuel')
            (bitloop (get_legal_moves board)) board alpha beta depth
      end
  end.

(** ** Move selection of the bot *)

(** Depth of recursion granted to a search started by the bot: a board has
    nine cells (see [alphabeta_fuel_enough] below). *)
Definition max_ply : nat := 9.

(** The [bitloop] of [BotPlayer::choose_move]; the state is the scratch
    board, [best_move] and [best_score]. *)
Fixpoint choose_loop (moves : list Z) (tmp_board : Board)
    (best_move best_score : Z) : option (Board * Z * Z) :=
  match moves with
  | [] => Some (tmp_board, best_move, best_score)
  | move_bb :: rest =>
      match alphabeta max_ply (make_move tmp_board move_bb) (-100) 100 0 with
      | None => None
      | Some (board2, v) =>
          let score := - v in
          let tmp_board' := unmake_move board2 move_bb in
          if score >? best_score
          then choose_loop rest tmp_board' move_bb score
          else if score =? best_score
          then choose_loop rest tmp_board' (u16 (Z.lor best_move move_bb))
                 best_score
          else choose_loop rest tmp_board' best_move best_score
      end
  end.

(** [best_move] and [best_score] as the loop leaves them. *)
Definition best_moves (board : Board) : option (Z * Z) :=
  match choose_loop (bitloop (get_legal_moves board)) board 0 (-100) with
  | None => None
  | Some (_, best_move, best_score) => Some (best_move, best_score)
  end.

(** The line written to standard output. *)
Definition prediction (best_score : Z) : string :=
  if best_score >? 0 then "Bot gewinnt auf jeden fall"%string
  else if best_score =? 0 then "Unentschieden bis jetzt"%string
  else "Bot verliert bei perfektem Spiel"%string.

(** [std::uniform_int_distribution<int> distr(a, b)] applied to the engine:
    some value of the closed range [a, b], every one of them being produced
    by some engine output [raw]. *)
Definition uniform_int (a b raw : Z) : Z := a + raw mod (b - a + 1).

(** The final [for (int i = 0; i < 9; i++)] loop, [n] iterations left. *)
Fixpoint select_loop (n : nat) (best_move des_bit mask bit_set : Z) : Z :=
  match n with
  | O => 0
  | S n' =>
      let bit_set' :=
        if Z.land mask best_move =? 0 then bit_set else bit_set + 1 in
      if des_bit =? bit_set' then mask
      else select_loop n' best_move des_bit (u16 (Z.shiftl mask 1)) bit_set'
  end.

(** [BotPlayer::choose_move]; [raw] is the output of the random engine.  The
    result is the printed prediction and the move returned. *)
Definition choose_move (board : Board) (raw : Z) : option (string * Z) :=
  match best_moves board with
  | None => None
  | Some (best_move, best_score) =>
      let out := prediction best_score in
      let move_count := popcount best_move in
      if move_count <=? 1 then Some (out, best_move)
      else
        let des_bit := uniform_int 1 (move_count - 1) raw in
        Some (out, select_loop 9 best_move des_bit (bin "1") 0)
  end.

(** Score the bot gives to [move_bb] on [board]. *)
Definition move_score (board : Board) (move_bb : Z) : option Z :=
  match alphabeta max_ply (make_move board move_bb) (-100) 100 0 with
  | None => None
  | Some (_, v) => Some (- v)
  end.

(** ** The search with a record of its calls *)

(** One invocation of [alphabeta]: the board and arguments it was entered
    with, and the value it returned. *)
Record Call : Type := mkCall {
  call_board : Board;
  call_alpha : Z;
  call_beta : Z;
  call_depth : Z;
  call_result : Z
}.

Fixpoint alphabeta_loop_log
    (rec : Board -> Z -> Z -> Z -> option (Board * Z * list Call))
    (moves : list Z) (board : Board) (alpha beta depth : Z)
    : option (Board * Z * list Call) :=
  match moves with
  | [] => Some (board, alpha, [])
  | move_bb :: rest =>
      let board1 := make_move board move_bb in
      match rec board1 (- beta) (- alpha) (depth + 1) with
      | None => None
      | Some (board2, v, l1) =>
          let score := - v in
          let board3 := unmake_move board2 move_bb in
          if score >=? beta then Some (board3, beta, l1)
          else
            let alpha' := if score >? alpha then score else alpha in
            match alphabeta_loop_log rec rest board3 alpha' beta depth with
            | None => None
            | Some (board4, r, l2) => Some (board4, r, l1 ++ l2)
            end
      end
  end.

(** [alphabeta] returning, besides its result, every call made, itself
    first. *)
Fixpoint alphabeta_log (fuel : nat) (board : Board) (alpha beta depth : Z)
    : option (Board * Z * list Call) :=
  let ret (b : Board) (v : Z) (l : list Call) :=
    Some (b, v, mkCall board alpha beta depth v :: l) in
  match check_status board with
  | DRAW => ret board 0 []
  | CIRCLE_WON =>
      if cross_to_move board then ret board (-1) []
      else ret board (10 - depth) []
  | CROSS_WON =>
      if cross_to_move board then ret board (10 - depth) []
      else ret board (-1) []
  | IN_PROGRESS =>
      match fuel with
      | O => None
      | S fuel' =>
          match alphabeta_loop_log (alphabeta_log fuel')
                  (bitloop (get_legal_moves board)) board alpha beta depth with
          | None => None
          | Some (b, v, l) => ret b v l
          end
      end
  end.

(** The calls of [alphabeta] made by one run of the loop of
    [choose_move], together with the scores it computed. *)
Fixpoint choose_loop_log (moves : list Z) (tmp_board : Board)
    : option (list Z * list Call) :=
  match moves with
  | [] => Some ([], [])
  | move_bb :: rest =>
      match alphabeta_log max_ply (make_move tmp_board move_bb) (-100) 100 0 with
      | None => None
      | Some (board2, v, l1) =>
          match choose_loop_log rest (unmake_move board2 move_bb) with
          | None => None
          | Some (scores, l2) => Some (- v :: scores, l1 ++ l2)
          end
      end
  end.

Definition choose_move_log (board : Board) : option (list Z * list Call) :=
  choose_loop_log (bitloop (get_legal_moves board)) board.

(** * Console, display, players and game loop *)

(** ** Console *)

Section Console.

Local Open Scope string_scope.

(** The console as the program sees it.  [cin] holds the outcomes of the
    successive extractions [std::cin >> number]: [None] for a failed
    extraction, [Some n] for the [int] read; when the list is used up the
    stream is at its end and every extraction fails.  [rng] holds the values
    that the random engines yield, in the order they are drawn.  [cout] is
    the text written so far. *)
Record World : Type := mkWorld {
  cin : list (option Z);
  rng : list Z;
  cout : string
}.

(** [std::cout << s]. *)
Definition print (s : string) (w : World) : World :=
  mkWorld (cin w) (rng w) (cout w ++ s).

(** The line feed and the escape character of the string literals. *)
Definition nl : string := String (ascii_of_nat 10) EmptyString.

Definition esc : string := String (ascii_of_nat 27) EmptyString.

(** [std::cout << sq] for a cell number, which has one decimal digit. *)
Definition show_int (sq : Z) : string :=
  String (ascii_of_nat (48 + Z.to_nat sq)) EmptyString.

(** ** [Board::show] *)

(** What [show] writes for the cell [sq]. *)
Definition show_cell (b : Board) (sq : Z) : string :=
  let sq_bb := u16 (Z.shiftl 1 sq) in
  if negb (Z.land sq_bb (cross b) =? 0)%Z then " ✗ "
  else if negb (Z.land sq_bb (circle b) =? 0)%Z then " ◯ "
  else " " ++ esc ++ "[38;2;86;95;137m" ++ show_int sq ++ esc ++ "[0m ".

(** The inner loop of [show] over the files still to write. *)
Fixpoint show_files (b : Board) (rank : Z) (files : list Z) : string :=
  match files with
  | [] => ""
  | file :: files' =>
      let sq := rank * 3 + file in
      show_cell b sq ++ (if negb (file =? 2)%Z then "│" else "")
      ++ show_files b rank files'
  end.

(** The outer loop of [show] over the ranks still to write. *)
Fixpoint show_ranks (b : Board) (ranks : list Z) : string :=
  match ranks with
  | [] => ""
  | rank :: ranks' =>
      show_files b rank [0; 1; 2] ++ nl
      ++ (if negb (rank =? 0)%Z then "───┼───┼───" ++ nl else "")
      ++ show_ranks b ranks'
  end.

Definition show (b : Board) : string := show_ranks b [2; 1; 0].

(** ** Players *)

(** The interface [Player]: [choose_move] reads the board and acts on the
    console; it may not return. *)
Record Player : Type := mkPlayer {
  player_choose_move : Board -> World -> option (Z * World);
  get_name : string
}.

(** The [while (true)] loop of [HumanPlayer::choose_move] on the outcomes
    still to come; the stream at its end fails every extraction, and the
    loop does not return. *)
Fixpoint human_loop (legal_moves : Z) (input : list (option Z)) (out : string)
    : option (Z * list (option Z) * string) :=
  match input with
  | [] => None
  | r :: rest =>
      let out1 := out ++ "Cell (0 - 8): " in
      let again :=
        human_loop legal_moves rest
          (out1 ++ "Invalid input. Please try again." ++ nl) in
      match r with
      | None => again
      | Some number =>
          if (number <? 0)%Z || (number >? 8)%Z ||
             (Z.land (Z.shiftl 1 number) legal_moves =? 0)%Z
          then again
          else Some (u16 (Z.shiftl 1 number), rest, out1)
      end
  end.

Definition HumanPlayer (m_name : string) : Player :=
  mkPlayer
    (fun board w =>
       match human_loop (get_legal_moves board) (cin w) (cout w) with
       | None => None
       | Some (move, rest, out) => Some (move, mkWorld rest (rng w) out)
       end)
    m_name.

(** The draws of [RandomPlayer::choose_move]: the first draw and the
    [while] loop, on the engine values still to come. *)
Fixpoint random_loop (legal_moves : Z) (draws : list Z) : option (Z * list Z) :=
  match draws with
  | [] => None
  | raw :: rest =>
      let number := uniform_int 0 8 raw in
      if negb (number =? -1)%Z && (Z.land (Z.shiftl 1 number) legal_moves =? 0)%Z
      then random_loop legal_moves rest
      else Some (u16 (Z.shiftl 1 number), rest)
  end.

Definition RandomPlayer (m_name : string) : Player :=
  mkPlayer
    (fun board w =>
       match random_loop (get_legal_moves board) (rng w) with
       | None => None
       | Some (move, rest) => Some (move, mkWorld (cin w) rest (cout w))
       end)
    m_name.

(** [BotPlayer::choose_move] on the console: the prediction is written and
    one engine value is drawn when two or more moves are tied. *)
Definition bot_choose_move (board : Board) (w : World) : option (Z * World) :=
  match best_moves board with
  | None => None
  | Some (best_move, best_score) =>
      let w1 := print (prediction best_score ++ nl) w in
      let move_count := popcount best_move in
      if (move_count <=? 1)%Z then Some (best_move, w1)
      else
        match rng w1 with
        | [] => None
        | raw :: rest =>
            let des_bit := uniform_int 1 (move_count - 1) raw in
            Some (select_loop 9 best_move des_bit (bin "1") 0,
                  mkWorld (cin w1) rest (cout w1))
        end
  end.

Definition BotPlayer (m_name : string) : Player :=
  mkPlayer bot_choose_move m_name.

(** ** [play] and [main] *)

(** The [while] loop of [play], [fuel] iterations being allowed; the result
    is the status returned, the board and the console. *)
Fixpoint play_loop (fuel : nat) (cross_player circle_player : Player)
    (board : Board) (count : Z) (w : World)
    : option (GameStatus * Board * World) :=
  match check_status board with
  | IN_PROGRESS =>
      match fuel with
      | O => None
      | S fuel' =>
          let w1 := print nl (print (show board) (print nl w)) in
          if (count mod 2 =? 0)%Z then
            let w2 := print (get_name cross_player ++ " (✗)" ++ nl) w1 in
            match player_choose_move cross_player board w2 with
            | None => None
            | Some (p1_move, w3) =>
                play_loop fuel' cross_player circle_player
                  (make_move board p1_move) (count + 1) w3
            end
          else
            let w2 := print (get_name circle_player ++ "(◯)" ++ nl ++ nl) w1 in
            match player_choose_move circle_player board w2 with
            | None => None
            | Some (p2_move, w3) =>
                play_loop fuel' cross_player circle_player
                  (make_move board p2_move) (count + 1) w3
            end
      end
  | s => Some (s, board, print (show board) w)
  end.

Definition play (fuel : nat) (cross_player circle_player : Player)
    (board : Board) (w : World) : option (GameStatus * Board * World) :=
  play_loop fuel cross_player circle_player board 0 w.

(** The banner that [main] writes for a result. *)
Definition banner (cr ci : Player) (result : GameStatus) : string :=
  match result with
  | DRAW => "======== DRAW ========" ++ nl
  | CIRCLE_WON => "======== " ++ get_name ci ++ " WON ========" ++ nl
  | CROSS_WON => "======== " ++ get_name cr ++ " WON ========" ++ nl
  | IN_PROGRESS => ""
  end.

(** [main]: a human plays cross against the bot; the result is the status
    of the game and the console at the end. *)
Definition main (fuel : nat) (w : World) : option (GameStatus * World) :=
  let board := mkBoard 0 0 true in
  let cr := HumanPlayer "Kolia" in
  let ci := BotPlayer "Silas" in
  let w1 := print ("✗: " ++ get_name cr ++ nl) w in
  let w2 := print ("◯: " ++ get_name ci ++ nl ++ nl) w1 in
  match play fuel cr ci board w2 with
  | None => None
  | Some (result, _, w3) =>
      Some (result, print nl (print (banner cr ci result) (print nl w3)))
  end.

End Console.

(** * Notions used by the properties *)

(** ** Boards, cells and moves *)

(** The values of the C++ type [Board]: both fields are [uint16_t]. *)
Definition wf_board (b : Board) : Prop :=
  0 <= cross b < 2 ^ 16 /\ 0 <= circle b < 2 ^ 16.

(** The integers [0 .. n-1]. *)
Definition below (n : nat) : list Z := map Z.of_nat (seq 0 n).

(** The nine cells of the board. *)
Definition cells : list Z := below 9.

(** The moves a set of empty cells [l] stands for, in increasing order. *)
Definition cell_moves (l : Z) : list Z :=
  map (fun i => 2 ^ i) (filter (Z.testbit l) cells).

(** Boolean equality of lists of integers. *)
Definition list_Z_eqb (l1 l2 : list Z) : bool :=
  if list_eq_dec Z.eq_dec l1 l2 then true else false.

(** The moves visited by the loops of [alphabeta] and [choose_move]. *)
Definition legal_move (b : Board) (m : Z) : Prop :=
  In m (bitloop (get_legal_moves b)).

(** The cells of each winning pattern, in the order of [winning_patterns]:
    three rows, three columns, two diagonals. *)
Definition lines : list (list Z) :=
  [ [6; 7; 8]; [3; 4; 5]; [0; 1; 2]
  ; [2; 5; 8]; [1; 4; 7]; [0; 3; 6]
  ; [0; 4; 8]; [2; 4; 6] ].

(** All cells of [line] belong to the occupancy set [occ]. *)
Definition owns (occ : Z) (line : list Z) : bool :=
  forallb (Z.testbit occ) line.

(** Each winning pattern with its line. *)
Definition pattern_lines : list (Z * list Z) := combine winning_patterns lines.

(** ** The status evaluation, stated on cells

    The algorithm of [check_status] as the specification words it, on sets
    of cells; [check_status_refines] below compares it with the code. *)

Module StatusSpec.

(** Cell [c] is claimed by neither side. *)
Definition cell_empty (cr ci c : Z) : bool :=
  negb (Z.testbit cr c || Z.testbit ci c).

(** Every cell of [line] is occupied by the side owning [own] or empty. *)
Definition completable (own other : Z) (line : list Z) : bool :=
  forallb (fun c => Z.testbit own c || cell_empty own other c) line.

(** The first line, in order, all three cells of which one side owns;
    cross is asked before circle on each line. *)
Fixpoint winner (cr ci : Z) (ls : list (list Z)) : option GameStatus :=
  match ls with
  | [] => None
  | line :: ls' =>
      if owns cr line then Some CROSS_WON
      else if owns ci line then Some CIRCLE_WON
      else winner cr ci ls'
  end.

(** Some line can still be completed by one of the sides. *)
Definition some_completable (cr ci : Z) (ls : list (list Z)) : bool :=
  existsb (fun line => completable cr ci line || completable ci cr line) ls.

(** The status: the winner if a line is owned, else IN_PROGRESS while some
    line can be completed, else DRAW. *)
Definition check_status_spec (b : Board) : GameStatus :=
  match winner (cross b) (circle b) lines with
  | Some s => s
  | None =>
      if some_completable (cross b) (circle b) lines
      then IN_PROGRESS else DRAW
  end.

End StatusSpec.

(** ** Reachable boards and their invariants *)

(** Number of empty cells. *)
Definition empty_cells (b : Board) : nat :=
  List.length (filter (StatusSpec.cell_empty (cross b) (circle b)) cells).

(** Boards reached from the empty board by legal moves. *)
Inductive reachable : Board -> Prop :=
| reachable_empty : reachable empty_board
| reachable_move (b : Board) (m : Z) :
    reachable b -> legal_move b m -> reachable (make_move b m).

(** The occupancy sets are disjoint and hold cells 0 to 8 only. *)
Definition board_inv (b : Board) : Prop :=
  Z.land (cross b) (circle b) = 0 /\
  0 <= cross b < 2 ^ 9 /\ 0 <= circle b < 2 ^ 9.

(** Boards that the game loop of [play] reaches: moves are made while the
    status is IN_PROGRESS. *)
Inductive played : Board -> Prop :=
| played_empty : played empty_board
| played_move (b : Board) (m : Z) :
    played b -> check_status b = IN_PROGRESS -> legal_move b m ->
    played (make_move b m).

(** The board with the two occupancy sets exchanged. *)
Definition swap_sides (b : Board) : Board :=
  mkBoard (circle b) (cross b) (cross_to_move b).

(** The status with the two wins exchanged. *)
Definition swap_status (s : GameStatus) : GameStatus :=
  match s with
  | CROSS_WON => CIRCLE_WON
  | CIRCLE_WON => CROSS_WON
  | s' => s'
  end.

(** ** Positions and values of the bot's search *)

(** A status that reports a win is met with the loser to move. *)
Definition loser_to_move (b : Board) : Prop :=
  match check_status b with
  | CROSS_WON => cross_to_move b = false
  | CIRCLE_WON => cross_to_move b = true
  | _ => True
  end.

(** The call returns through a [10 - depth] branch. *)
Definition depth_branch (b : Board) : Prop :=
  (check_status b = CIRCLE_WON /\ cross_to_move b = false) \/
  (check_status b = CROSS_WON /\ cross_to_move b = true).

(** The three values of a position: lost, drawn, won. *)
Definition small (v : Z) : Prop := v = -1 \/ v = 0 \/ v = 1.

(** A call on a position where a win has the loser to move, returning one
    of the three values. *)
Definition call_ok (c : Call) : Prop :=
  loser_to_move (call_board c) /\ ~ depth_branch (call_board c) /\
  small (call_result c).

(** The bounds that occur below the root calls of the bot. *)
Definition window (alpha beta : Z) : Prop :=
  (alpha = -100 \/ small alpha) /\ (beta = 100 \/ small beta) /\ alpha < beta.

(** ** The set of best moves and the choice in it *)

(** What [best_move] and [best_score] hold once the moves [done] have been
    visited. *)
Definition best_inv (board : Board) (done : list Z) (bm bs : Z) : Prop :=
  0 <= bm < 2 ^ 9 /\
  (forall m s, In m done -> move_score board m = Some s -> s <= bs) /\
  (forall i, 0 <= i < 9 ->
     (Z.testbit bm i = true <->
      In (2 ^ i) done /\ move_score board (2 ^ i) = Some bs)) /\
  ((done = [] /\ bs = -100) \/
   (exists i, 0 <= i < 9 /\ Z.testbit bm i = true)).

(** [m] is the move of a cell that belongs to the set [bm]. *)
Definition set_cell (bm m : Z) : bool :=
  existsb (fun i => (m =? 2 ^ i) && Z.testbit bm i) cells.

(** What the end of [choose_move] returns from the set [bm] when the
    distribution yields [des_bit]. *)
Definition select_move (bm des_bit : Z) : Z :=
  if popcount bm <=? 1 then bm else select_loop 9 bm des_bit (bin "1") 0.

(** [des_bit] is a value of the distribution built for the set [bm]. *)
Definition in_distr (bm des_bit : Z) : bool :=
  (1 <=? des_bit) && (des_bit <=? popcount bm - 1).

(** Check on one set [bm]: every value of the distribution selects a cell
    of [bm]. *)
Definition select_ok (bm : Z) : bool :=
  forallb (fun des_bit =>
    if popcount bm <=? 1 then (bm =? 0) || set_cell bm (select_move bm des_bit)
    else negb (in_distr bm des_bit) || set_cell bm (select_move bm des_bit))
    (below 16).

(** Check on one set [bm] of two cells or more: the highest cell of [bm] is
    selected by no value of the distribution. *)
Definition select_skips_top (bm : Z) : bool :=
  (popcount bm <=? 1) ||
  (set_cell bm (2 ^ Z.log2 bm) &&
   forallb (fun des_bit =>
     negb (in_distr bm des_bit) ||
     negb (select_move bm des_bit =? 2 ^ Z.log2 bm)) (below 16)).

(** Check on one set [bm] of two cells or more: every cell of [bm] but the
    highest is selected by some value of the distribution. *)
Definition select_reaches_lower (bm : Z) : bool :=
  (popcount bm <=? 1) ||
  forallb (fun i =>
    negb (Z.testbit bm i) || (i =? Z.log2 bm) ||
    existsb (fun des_bit =>
      in_distr bm des_bit && (select_move bm des_bit =? 2 ^ i)) (below 16))
    cells.

(** ** The bot moving first *)

(** Boards on which the bot, playing cross from the empty board, is to
    move: in each round the bot plays one of its best moves and the
    opponent answers with any legal move, the game being in progress. *)
Inductive bot_first : Board -> Prop :=
| bot_first_start : bot_first empty_board
| bot_first_round (b : Board) (bm bs m m' : Z) :
    bot_first b ->
    check_status b = IN_PROGRESS ->
    best_moves b = Some (bm, bs) ->
    set_cell bm m = true ->
    check_status (make_move b m) = IN_PROGRESS ->
    legal_move (make_move b m) m' ->
    bot_first (make_move (make_move b m) m').

(** Exhaustive check of the rounds that follow [b], [n] rounds deep: the
    best score is never negative. *)
Fixpoint bot_safe (n : nat) (b : Board) : bool :=
  match check_status b with
  | IN_PROGRESS =>
      match best_moves b with
      | Some (bm, bs) =>
          (0 <=? bs) &&
          match n with
          | O => false
          | S n' =>
              forallb (fun m =>
                match check_status (make_move b m) with
                | IN_PROGRESS =>
                    forallb
                      (fun m' => bot_safe n' (make_move (make_move b m) m'))
                      (bitloop (get_legal_moves (make_move b m)))
                | _ => true
                end) (cell_moves bm)
          end
      | None => false
      end
  | _ => true
  end.

(** ** Notions used by the properties of the players and of the game *)

Section ConsoleNotions.

Local Open Scope string_scope.

(** The mark that a cell shows. *)
Inductive Mark : Type :=
| MarkCross
| MarkCircle
| MarkEmpty.

(** The mark of the cell [sq]: a cell held by both sides counts as cross. *)
Definition mark_at (b : Board) (sq : Z) : Mark :=
  if Z.testbit (cross b) sq then MarkCross
  else if Z.testbit (circle b) sq then MarkCircle
  else MarkEmpty.

(** What [show] writes for a mark in the cell [sq]. *)
Definition glyph (m : Mark) (sq : Z) : string :=
  match m with
  | MarkCross => " ✗ "
  | MarkCircle => " ◯ "
  | MarkEmpty => " " ++ esc ++ "[38;2;86;95;137m" ++ show_int sq ++ esc ++ "[0m "
  end.

(** The outcome [r] of an extraction names an empty cell of [b]. *)
Definition names_empty_cell (b : Board) (r : option Z) : Prop :=
  exists n, r = Some n /\ 0 <= n <= 8 /\
            StatusSpec.cell_empty (cross b) (circle b) n = true.

(** The text written for one rejected entry, and the prompt. *)
Definition prompt : string := "Cell (0 - 8): ".

Definition rejection : string :=
  prompt ++ "Invalid input. Please try again." ++ nl.

(** [rejection] written [k] times. *)
Fixpoint rejections (k : nat) : string :=
  match k with
  | O => ""
  | S k' => rejection ++ rejections k'
  end.

(** The cell that the engine value [raw] makes [RandomPlayer] try. *)
Definition random_cell (raw : Z) : Z := raw mod 9.

(** A player that returns legal moves only, on the boards on which [play]
    asks for a move. *)
Definition legal_player (p : Player) : Prop :=
  forall b w m w',
    wf_board b -> check_status b = IN_PROGRESS ->
    player_choose_move p b w = Some (m, w') -> legal_move b m.

End ConsoleNotions.

(** ** The search without bounds *)

(** The search without bounds, as a reference for [alphabeta]: the loop of
    [alphabeta] with the cut-off removed, keeping the best score so far. *)
Fixpoint negamax_loop (rec : Board -> Z -> option Z) (moves : list Z)
    (board : Board) (best depth : Z) : option Z :=
  match moves with
  | [] => Some best
  | move_bb :: rest =>
      match rec (make_move board move_bb) (depth + 1) with
      | None => None
      | Some v => negamax_loop rec rest board (Z.max best (- v)) depth
      end
  end.

(** The value of a position when every move is searched: the terminal
    values of [alphabeta], and on a board in progress the best negated value
    of the positions after a legal move, -100 at least. *)
Fixpoint negamax (fuel : nat) (board : Board) (depth : Z) : option Z :=
  match check_status board with
  | DRAW => Some 0
  | CIRCLE_WON => Some (if cross_to_move board then -1 else 10 - depth)
  | CROSS_WON => Some (if cross_to_move board then 10 - depth else -1)
  | IN_PROGRESS =>
      match fuel with
      | O => None
      | S fuel' =>
          negamax_loop (negamax fuel') (bitloop (get_legal_moves board))
            board (-100) depth
      end
  end.

(** ** Games of the bot *)

(** [bot_game bot_is_cross b b']: the board [b'] is reached from [b] by a
    game in which the bot, on the side [bot_is_cross], plays one of its best
    moves at each of its turns and the other side any legal move, moves being
    made while the game is in progress. *)
Inductive bot_game (bot_is_cross : bool) : Board -> Board -> Prop :=
| bot_game_here (b : Board) : bot_game bot_is_cross b b
| bot_game_bot (b b' : Board) (bm bs m : Z) :
    check_status b = IN_PROGRESS ->
    cross_to_move b = bot_is_cross ->
    best_moves b = Some (bm, bs) ->
    set_cell bm m = true ->
    bot_game bot_is_cross (make_move b m) b' ->
    bot_game bot_is_cross b b'
| bot_game_other (b b' : Board) (m : Z) :
    check_status b = IN_PROGRESS ->
    cross_to_move b = negb bot_is_cross ->
    legal_move b m ->
    bot_game bot_is_cross (make_move b m) b' ->
    bot_game bot_is_cross b b'.

(** The status that is the win of the side [bot_is_cross]. *)
Definition win_of (bot_is_cross : bool) : GameStatus :=
  if bot_is_cross then CROSS_WON else CIRCLE_WON.

(** Exhaustive check, [n] plies deep, of the games of the bot that follow
    [b]: none ends with the win of the other side; at each turn of the bot
    the best score is not negative; and once it has been positive, which
    [promised] records, the game ends with the bot's win. *)
Fixpoint bot_word (bot_is_cross promised : bool) (n : nat) (b : Board) : bool :=
  match check_status b with
  | IN_PROGRESS =>
      match n with
      | O => false
      | S n' =>
          if Bool.eqb (cross_to_move b) bot_is_cross
          then
            match best_moves b with
            | Some (bm, bs) =>
                (0 <=? bs) &&
                forallb
                  (fun m =>
                     bot_word bot_is_cross (promised || (0 <? bs)) n'
                       (make_move b m))
                  (cell_moves bm)
            | None => false
            end
          else
            forallb
              (fun m => bot_word bot_is_cross promised n' (make_move b m))
              (bitloop (get_legal_moves b))
      end
  | DRAW => negb promised
  | CROSS_WON => bot_is_cross
  | CIRCLE_WON => negb bot_is_cross
  end.

(** Exhaustive check of the games that follow [b], [n] plies deep, in which
    the bot plays any of its best moves and the other side any legal move:
    no game ends with the bot's opponent having won. *)
Fixpoint bot_never_loses (bot_is_cross : bool) (n : nat) (b : Board) : bool :=
  match check_status b with
  | IN_PROGRESS =>
      match n with
      | O => false
      | S n' =>
          if Bool.eqb (cross_to_move b) bot_is_cross
          then
            match best_moves b with
            | Some (bm, _) =>
                forallb
                  (fun m => bot_never_loses bot_is_cross n' (make_move b m))
                  (cell_moves bm)
            | None => false
            end
          else
            forallb (fun m => bot_never_loses bot_is_cross n' (make_move b m))
              (bitloop (get_legal_moves b))
      end
  | DRAW => true
  | CROSS_WON => bot_is_cross
  | CIRCLE_WON => negb bot_is_cross
  end.

(** The bot plays the side [bot_is_cross]; the other player returns legal
    moves. *)
Definition bot_plays (bot_is_cross : bool) (cross_player circle_player : Player)
    : Prop :=
  if bot_is_cross
  then player_choose_move cross_player = bot_choose_move /\
       legal_player circle_player
  else player_choose_move circle_player = bot_choose_move /\
       legal_player cross_player.

(** * Properties *)

(** ** Bit-level facts *)

Lemma testbit_high (n x j : Z) :
  0 <= n -> 0 <= x < 2 ^ n -> n <= j -> Z.testbit x j = false.
Proof.
  intros Hn Hx Hj.
  rewrite <- (Z.mod_small x (2 ^ n)) by assumption.
  apply Z.mod_pow2_bits_high. lia.
Qed.

Lemma land_ones_range (n x : Z) : 0 <= n -> 0 <= Z.land x (Z.ones n) < 2 ^ n.
Proof.
  intros Hn. rewrite Z.land_ones by assumption.
  apply Z.mod_pos_bound. apply Z.pow_pos_nonneg; lia.
Qed.

Lemma u16_range (x : Z) : 0 <= u16 x < 2 ^ 16.
Proof. unfold u16. apply land_ones_range. lia. Qed.

Lemma u16_small (x : Z) : 0 <= x < 2 ^ 16 -> u16 x = x.
Proof.
  intros Hx. unfold u16. rewrite Z.land_ones by lia. now apply Z.mod_small.
Qed.

Lemma testbit_u16 (x j : Z) :
  0 <= j -> Z.testbit (u16 x) j = Z.testbit x j && (j <? 16).
Proof.
  intros Hj. unfold u16.
  rewrite Z.land_spec, Z.testbit_ones_nonneg by lia. reflexivity.
Qed.

(** Storing [x ^ m] and then [(x ^ m) ^ m] into a [Bitboard] gives back the
    bitboard [x], whatever [m] is. *)
Lemma u16_lxor_lxor (x m : Z) :
  0 <= x < 2 ^ 16 -> u16 (Z.lxor (u16 (Z.lxor x m)) m) = x.
Proof.
  intros Hx. apply Z.bits_inj'. intros j Hj.
  rewrite testbit_u16, Z.lxor_spec, testbit_u16, Z.lxor_spec by assumption.
  destruct (Z.ltb_spec j 16) as [Hlt | Hge].
  - rewrite !andb_true_r. now rewrite xorb_assoc, xorb_nilpotent, xorb_false_r.
  - rewrite andb_false_r. symmetry. apply (testbit_high 16); lia.
Qed.

(** ** Well-formed boards: the values of the C++ type *)

Lemma wf_empty_board : wf_board empty_board.
Proof. unfold wf_board; simpl; lia. Qed.

Lemma wf_make_move (b : Board) (m : Z) : wf_board b -> wf_board (make_move b m).
Proof.
  intros [Hx Ho]. unfold make_move, wf_board.
  destruct (cross_to_move b); simpl; split; auto using u16_range.
Qed.

Lemma unmake_make_move (b : Board) (m : Z) :
  wf_board b -> unmake_move (make_move b m) m = b.
Proof.
  intros [Hx Ho]. destruct b as [cr ci tm]. simpl in *.
  unfold make_move, unmake_move; simpl.
  destruct tm; simpl; f_equal; now apply u16_lxor_lxor.
Qed.

(** ** The search restores the board *)

Section Restore.

Variable rec : Board -> Z -> Z -> Z -> option (Board * Z).
Hypothesis rec_restores :
  forall b alpha beta depth b' v,
    wf_board b -> rec b alpha beta depth = Some (b', v) -> b' = b.

Lemma alphabeta_loop_restores (moves : list Z) :
  forall board alpha beta depth b' v,
    wf_board board ->
    alphabeta_loop rec moves board alpha beta depth = Some (b', v) ->
    b' = board.
Proof.
  induction moves as [| m rest IH]; intros board alpha beta depth b' v Hwf H;
    simpl in H.
  - now inversion H.
  - destruct (rec (make_move board m) (- beta) (- alpha) (depth + 1))
      as [[b2 v2] |] eqn:Hrec; [| discriminate].
    apply rec_restores in Hrec; [| now apply wf_make_move]. subst b2.
    rewrite unmake_make_move in H by assumption.
    destruct (- v2 >=? beta).
    + now inversion H.
    + now apply IH in H.
Qed.

End Restore.

Lemma alphabeta_restores (fuel : nat) :
  forall board alpha beta depth b' v,
    wf_board board ->
    alphabeta fuel board alpha beta depth = Some (b', v) -> b' = board.
Proof.
  induction fuel as [| fuel IH]; intros board alpha beta depth b' v Hwf H;
    simpl in H;
    destruct (check_status board); destruct (cross_to_move board);
    try discriminate; try (now inversion H);
    eapply alphabeta_loop_restores; eauto.
Qed.

(** ** Finite checks over the nine cells *)

Lemma in_below (n : nat) (x : Z) : In x (below n) <-> 0 <= x < Z.of_nat n.
Proof.
  unfold below. rewrite in_map_iff. split.
  - intros [k [Hk Hin]]. apply in_seq in Hin. lia.
  - intros Hx. exists (Z.to_nat x). split; [lia |]. apply in_seq. lia.
Qed.

Lemma forallb_below (P : Z -> bool) (n : nat) :
  forallb P (below n) = true -> forall x, 0 <= x < Z.of_nat n -> P x = true.
Proof.
  intros H x Hx. rewrite forallb_forall in H. apply H. now apply in_below.
Qed.

Lemma in_cells (i : Z) : In i cells <-> 0 <= i < 9.
Proof. unfold cells. rewrite in_below. lia. Qed.

Lemma list_Z_eqb_eq (l1 l2 : list Z) : list_Z_eqb l1 l2 = true -> l1 = l2.
Proof. unfold list_Z_eqb. destruct (list_eq_dec Z.eq_dec l1 l2); easy. Qed.

(** [bitloop] visits every set cell once, lowest first. *)
Lemma bitloop_cell_moves (l : Z) : 0 <= l < 512 -> bitloop l = cell_moves l.
Proof.
  intros Hl. apply list_Z_eqb_eq.
  apply (forallb_below (fun x => list_Z_eqb (bitloop x) (cell_moves x)) 512);
    [now vm_compute | lia].
Qed.

Lemma in_cell_moves (l m : Z) :
  In m (cell_moves l) <-> exists i, 0 <= i < 9 /\ Z.testbit l i = true /\ m = 2 ^ i.
Proof.
  unfold cell_moves. rewrite in_map_iff. split.
  - intros [i [Hm Hin]]. apply filter_In in Hin. destruct Hin as [Hc Ht].
    apply in_cells in Hc. eauto.
  - intros [i [Hi [Ht Hm]]]. exists i. split; [easy |].
    apply filter_In. split; [now apply in_cells | easy].
Qed.

(** ** Legal moves *)

Lemma get_legal_moves_eq (b : Board) :
  get_legal_moves b = Z.land (Z.lnot (Z.lor (cross b) (circle b))) (Z.ones 9).
Proof.
  unfold get_legal_moves. change (bin "111111111") with (Z.ones 9).
  apply u16_small.
  pose proof (land_ones_range 9 (Z.lnot (Z.lor (cross b) (circle b)))). lia.
Qed.

Lemma get_legal_moves_range (b : Board) : 0 <= get_legal_moves b < 512.
Proof.
  rewrite get_legal_moves_eq.
  pose proof (land_ones_range 9 (Z.lnot (Z.lor (cross b) (circle b)))). lia.
Qed.

Lemma testbit_legal (b : Board) (j : Z) :
  0 <= j ->
  Z.testbit (get_legal_moves b) j =
  negb (Z.testbit (cross b) j || Z.testbit (circle b) j) && (j <? 9).
Proof.
  intros Hj. rewrite get_legal_moves_eq.
  rewrite Z.land_spec, Z.lnot_spec, Z.lor_spec, Z.testbit_ones_nonneg by lia.
  reflexivity.
Qed.

Lemma legal_move_iff (b : Board) (m : Z) :
  legal_move b m <->
  exists i, 0 <= i < 9 /\ Z.testbit (cross b) i = false /\
            Z.testbit (circle b) i = false /\ m = 2 ^ i.
Proof.
  unfold legal_move.
  rewrite bitloop_cell_moves by apply get_legal_moves_range.
  rewrite in_cell_moves. split; intros [i [Hi H]]; exists i; split; try easy.
  - destruct H as [Ht Hm]. rewrite testbit_legal in Ht by lia.
    apply andb_prop in Ht. destruct Ht as [Ht _].
    apply negb_true_iff, orb_false_elim in Ht. easy.
  - destruct H as [Hx [Ho Hm]]. rewrite testbit_legal by lia.
    rewrite Hx, Ho. simpl. split; [| easy]. apply Z.ltb_lt. lia.
Qed.

(** ** Winning patterns as lines of cells *)

Lemma land_low (x p : Z) :
  0 <= p < 512 -> Z.land x p = Z.land (Z.land x (Z.ones 9)) p.
Proof.
  intros Hp. rewrite <- Z.land_assoc. f_equal.
  apply Z.bits_inj'. intros j Hj.
  rewrite Z.land_spec, Z.testbit_ones_nonneg by lia.
  destruct (Z.ltb_spec j 9); [reflexivity |].
  simpl. apply (testbit_high 9); lia.
Qed.

Lemma owns_low (x : Z) (line : list Z) :
  (forall c, In c line -> 0 <= c < 9) ->
  owns x line = owns (Z.land x (Z.ones 9)) line.
Proof.
  intros Hline. unfold owns. induction line as [| c line IH]; [reflexivity |].
  simpl. rewrite IH by (intros; apply Hline; now right). f_equal.
  specialize (Hline c (or_introl eq_refl)).
  rewrite Z.land_spec, Z.testbit_ones_nonneg by lia.
  replace (c <? 9) with true by (symmetry; apply Z.ltb_lt; lia).
  now rewrite andb_true_r.
Qed.

Lemma pattern_lines_cells (p : Z) (line : list Z) :
  In (p, line) pattern_lines ->
  0 <= p < 512 /\ p <> 0 /\ forall c, In c line -> 0 <= c < 9.
Proof.
  intros Hin.
  assert (H : forallb (fun pl =>
            (0 <=? fst pl) && (fst pl <? 512) && negb (fst pl =? 0) &&
            forallb (fun c => (0 <=? c) && (c <? 9)) (snd pl))
            pattern_lines = true) by now vm_compute.
  rewrite forallb_forall in H. specialize (H _ Hin). cbn [fst snd] in H.
  apply andb_prop in H. destruct H as [H Hc].
  apply andb_prop in H. destruct H as [H Hnz].
  apply andb_prop in H. destruct H as [H0 H1].
  split; [lia |]. split.
  - apply negb_true_iff, Z.eqb_neq in Hnz. assumption.
  - intros c Hcin. rewrite forallb_forall in Hc. apply Hc in Hcin. lia.
Qed.

(** The test [(x & pattern) == pattern] says that [x] owns the line. *)
Lemma land_pattern (p : Z) (line : list Z) (x : Z) :
  In (p, line) pattern_lines -> (Z.land x p =? p) = owns x line.
Proof.
  intros Hin. destruct (pattern_lines_cells p line Hin) as [Hp [_ Hline]].
  rewrite (land_low x p), (owns_low x line) by assumption.
  pose proof (land_ones_range 9 x) as Hy.
  set (y := Z.land x (Z.ones 9)) in *.
  assert (H : forallb (fun pl => forallb (fun y =>
            Bool.eqb (Z.land y (fst pl) =? fst pl) (owns y (snd pl)))
            (below 512)) pattern_lines = true) by now vm_compute.
  rewrite forallb_forall in H. specialize (H _ Hin). cbn [fst snd] in H.
  apply eqb_prop. apply (forallb_below _ 512 H). lia.
Qed.

Lemma testbit_lor_lnot (a c j : Z) :
  0 <= j ->
  Z.testbit (Z.lor a (Z.lnot c)) j = Z.testbit a j || negb (Z.testbit c j).
Proof. intros Hj. now rewrite Z.lor_spec, Z.lnot_spec. Qed.

Lemma first_win_winner (cr ci : Z) (pls : list (Z * list Z)) :
  incl pls pattern_lines ->
  first_win cr ci (map fst pls) = StatusSpec.winner cr ci (map snd pls).
Proof.
  induction pls as [| [p line] pls IH]; intros Hincl; [reflexivity |].
  simpl.
  rewrite !(land_pattern p line) by (apply Hincl; now left).
  rewrite IH by (intros x Hx; apply Hincl; now right). reflexivity.
Qed.

Lemma winnable_loop_existsb (cr ci : Z) (ps : list Z) :
  forall w,
    winnable_loop cr ci ps w =
    w || existsb (fun p => (Z.land (Z.lor cr (Z.lnot ci)) p =? p) ||
                           (Z.land (Z.lor ci (Z.lnot cr)) p =? p)) ps.
Proof.
  induction ps as [| p ps IH]; intros w; simpl.
  - now rewrite orb_false_r.
  - rewrite IH.
    destruct (Z.land (Z.lor cr (Z.lnot ci)) p =? p);
      destruct (Z.land (Z.lor ci (Z.lnot cr)) p =? p);
      destruct w; reflexivity.
Qed.

Lemma owns_lor_lnot (own other : Z) (line : list Z) :
  (forall c, In c line -> 0 <= c < 9) ->
  owns (Z.lor own (Z.lnot other)) line = StatusSpec.completable own other line.
Proof.
  intros Hline. unfold owns, StatusSpec.completable, StatusSpec.cell_empty.
  induction line as [| c line IH]; [reflexivity |].
  simpl. rewrite IH by (intros; apply Hline; now right).
  rewrite testbit_lor_lnot by (specialize (Hline c (or_introl eq_refl)); lia).
  destruct (Z.testbit own c); destruct (Z.testbit other c); reflexivity.
Qed.

Lemma winnable_some_completable (cr ci : Z) (pls : list (Z * list Z)) :
  incl pls pattern_lines ->
  winnable_loop cr ci (map fst pls) false =
  StatusSpec.some_completable cr ci (map snd pls).
Proof.
  intros Hincl. rewrite winnable_loop_existsb. simpl.
  unfold StatusSpec.some_completable.
  induction pls as [| [p line] pls IH]; [reflexivity |].
  simpl.
  assert (Hin : In (p, line) pattern_lines) by (apply Hincl; now left).
  rewrite !(land_pattern p line) by assumption.
  rewrite !owns_lor_lnot by (apply (pattern_lines_cells p line Hin)).
  rewrite IH by (intros x Hx; apply Hincl; now right). reflexivity.
Qed.

Lemma check_status_refines (b : Board) :
  check_status b = StatusSpec.check_status_spec b.
Proof.
  unfold check_status, StatusSpec.check_status_spec.
  change winning_patterns with (map fst pattern_lines).
  change lines with (map snd pattern_lines).
  rewrite first_win_winner, winnable_some_completable by apply incl_refl.
  reflexivity.
Qed.

(** ** What each status says about the lines *)

Lemma winner_cases (cr ci : Z) (ls : list (list Z)) :
  match StatusSpec.winner cr ci ls with
  | Some CROSS_WON => exists line, In line ls /\ owns cr line = true
  | Some CIRCLE_WON => exists line, In line ls /\ owns ci line = true
  | Some _ => False
  | None => forall line, In line ls -> owns cr line = false /\ owns ci line = false
  end.
Proof.
  induction ls as [| line ls IH]; simpl.
  - intros line [].
  - destruct (owns cr line) eqn:Hcr; [exists line; auto |].
    destruct (owns ci line) eqn:Hci; [exists line; auto |].
    destruct (StatusSpec.winner cr ci ls) as [[| | |] |]; try easy.
    + destruct IH as [l [Hl Ho]]. exists l; auto.
    + destruct IH as [l [Hl Ho]]. exists l; auto.
    + intros l [<- | Hl]; auto.
Qed.

Lemma status_cross_won (b : Board) :
  check_status b = CROSS_WON ->
  exists line, In line lines /\ owns (cross b) line = true.
Proof.
  rewrite check_status_refines. unfold StatusSpec.check_status_spec.
  pose proof (winner_cases (cross b) (circle b) lines) as H.
  destruct (StatusSpec.winner (cross b) (circle b) lines) as [s |].
  - intros ->. exact H.
  - destruct (StatusSpec.some_completable _ _ _); discriminate.
Qed.

Lemma status_circle_won (b : Board) :
  check_status b = CIRCLE_WON ->
  exists line, In line lines /\ owns (circle b) line = true.
Proof.
  rewrite check_status_refines. unfold StatusSpec.check_status_spec.
  pose proof (winner_cases (cross b) (circle b) lines) as H.
  destruct (StatusSpec.winner (cross b) (circle b) lines) as [s |].
  - intros ->. exact H.
  - destruct (StatusSpec.some_completable _ _ _); discriminate.
Qed.

Lemma status_no_winner (b : Board) :
  check_status b = IN_PROGRESS \/ check_status b = DRAW ->
  forall line, In line lines ->
    owns (cross b) line = false /\ owns (circle b) line = false.
Proof.
  rewrite check_status_refines. unfold StatusSpec.check_status_spec.
  pose proof (winner_cases (cross b) (circle b) lines) as H.
  destruct (StatusSpec.winner (cross b) (circle b) lines) as [s |].
  - intros [-> | ->]; contradiction.
  - intros _. exact H.
Qed.

Lemma lines_cells (line : list Z) (c : Z) :
  In line lines -> In c line -> 0 <= c < 9.
Proof.
  intros Hl Hc.
  assert (H : forallb (forallb (fun c => (0 <=? c) && (c <? 9))) lines = true)
    by reflexivity.
  rewrite forallb_forall in H. apply H in Hl.
  rewrite forallb_forall in Hl. apply Hl in Hc. lia.
Qed.

(** A line that a side can still complete but does not own has an empty
    cell. *)
Lemma completable_not_owned (own other : Z) (line : list Z) :
  StatusSpec.completable own other line = true ->
  owns own line = false ->
  exists c, In c line /\ StatusSpec.cell_empty own other c = true.
Proof.
  unfold StatusSpec.completable, owns.
  induction line as [| c line IH]; simpl; [discriminate |].
  intros Hc Ho. apply andb_prop in Hc. destruct Hc as [Hc Hrest].
  destruct (Z.testbit own c) eqn:Hown; simpl in *.
  - destruct (IH Hrest Ho) as [c' [Hin He]]. exists c'. auto.
  - exists c. auto.
Qed.

Lemma cell_empty_sym (cr ci c : Z) :
  StatusSpec.cell_empty cr ci c = StatusSpec.cell_empty ci cr c.
Proof. unfold StatusSpec.cell_empty. now rewrite orb_comm. Qed.

(** A board in progress has an empty cell. *)
Lemma in_progress_empty_cell (b : Board) :
  check_status b = IN_PROGRESS ->
  exists c, 0 <= c < 9 /\ StatusSpec.cell_empty (cross b) (circle b) c = true.
Proof.
  intros Hs. pose proof (status_no_winner b (or_introl Hs)) as Hno.
  rewrite check_status_refines in Hs. unfold StatusSpec.check_status_spec in Hs.
  destruct (StatusSpec.winner (cross b) (circle b) lines) as [s |] eqn:Hw.
  - pose proof (winner_cases (cross b) (circle b) lines) as H.
    rewrite Hw in H. subst s. contradiction.
  - destruct (StatusSpec.some_completable (cross b) (circle b) lines) eqn:Hc;
      [| discriminate].
    unfold StatusSpec.some_completable in Hc. apply existsb_exists in Hc.
    destruct Hc as [line [Hin Hc]]. destruct (Hno line Hin) as [Hx Ho].
    apply orb_prop in Hc. destruct Hc as [Hc | Hc].
    + destruct (completable_not_owned _ _ _ Hc Hx) as [c [Hcl He]].
      exists c. split; [eapply lines_cells; eauto | assumption].
    + destruct (completable_not_owned _ _ _ Hc Ho) as [c [Hcl He]].
      exists c. split; [eapply lines_cells; eauto |].
      now rewrite cell_empty_sym.
Qed.

(** ** Empty cells as the measure of the search *)

Lemma empty_cells_le_9 (b : Board) : (empty_cells b <= 9)%nat.
Proof.
  unfold empty_cells.
  pose proof (filter_length_le (StatusSpec.cell_empty (cross b) (circle b)) cells).
  change (List.length cells) with 9%nat in H. exact H.
Qed.

Lemma filter_length_lt {A : Type} (f g : A -> bool) (l : list A) (x : A) :
  (forall y, In y l -> g y = true -> f y = true) ->
  In x l -> f x = true -> g x = false ->
  (List.length (filter g l) < List.length (filter f l))%nat.
Proof.
  induction l as [| a l IH]; intros Hsub Hin Hf Hg; [contradiction |].
  assert (Hle : forall l', (forall y, In y l' -> g y = true -> f y = true) ->
            (List.length (filter g l') <= List.length (filter f l'))%nat).
  { induction l' as [| a' l' IH']; intros Hs; [simpl; lia |].
    simpl. specialize (IH' (fun y Hy => Hs y (or_intror Hy))).
    pose proof (Hs a' (or_introl eq_refl)) as Ha.
    destruct (g a'); [rewrite Ha by reflexivity |]; simpl;
      [| destruct (f a'); simpl]; lia. }
  simpl. destruct Hin as [-> | Hin].
  - rewrite Hf, Hg. simpl.
    specialize (Hle l (fun y Hy => Hsub y (or_intror Hy))). lia.
  - specialize (IH (fun y Hy => Hsub y (or_intror Hy)) Hin Hf Hg).
    pose proof (Hsub a (or_introl eq_refl)) as Ha.
    destruct (g a); [rewrite Ha by reflexivity |]; simpl;
      [| destruct (f a); simpl]; lia.
Qed.

Lemma testbit_toggle (x i j : Z) :
  0 <= i -> 0 <= j < 16 ->
  Z.testbit (u16 (Z.lxor x (2 ^ i))) j = xorb (Z.testbit x j) (i =? j).
Proof.
  intros Hi Hj. rewrite testbit_u16, Z.lxor_spec, Z.pow2_bits_eqb by lia.
  replace (j <? 16) with true by (symmetry; apply Z.ltb_lt; lia).
  now rewrite andb_true_r.
Qed.

Lemma legal_move_cell (b : Board) (m : Z) :
  legal_move b m ->
  exists i, 0 <= i < 9 /\ m = 2 ^ i /\
            StatusSpec.cell_empty (cross b) (circle b) i = true.
Proof.
  intros H. apply legal_move_iff in H. destruct H as [i [Hi [Hx [Ho Hm]]]].
  exists i. unfold StatusSpec.cell_empty. rewrite Hx, Ho. auto.
Qed.

Lemma cell_empty_legal_move (b : Board) (i : Z) :
  0 <= i < 9 -> StatusSpec.cell_empty (cross b) (circle b) i = true ->
  legal_move b (2 ^ i).
Proof.
  intros Hi He. apply legal_move_iff. exists i.
  unfold StatusSpec.cell_empty in He.
  apply negb_true_iff, orb_false_elim in He. easy.
Qed.

(** Playing cell [i] fills it and touches no other cell. *)
Lemma cell_empty_make_move (b : Board) (i c : Z) :
  0 <= i < 9 -> 0 <= c < 9 ->
  StatusSpec.cell_empty (cross b) (circle b) i = true ->
  StatusSpec.cell_empty (cross (make_move b (2 ^ i)))
    (circle (make_move b (2 ^ i))) c =
  StatusSpec.cell_empty (cross b) (circle b) c && negb (i =? c).
Proof.
  intros Hi Hc He. unfold StatusSpec.cell_empty in *. unfold make_move.
  apply negb_true_iff, orb_false_elim in He. destruct He as [Hx Ho].
  destruct (cross_to_move b); simpl; rewrite testbit_toggle by lia;
    destruct (Z.eqb_spec i c) as [-> | Hne];
    rewrite ?Hx, ?Ho; simpl;
    rewrite ?xorb_false_r, ?orb_true_r, ?andb_false_r, ?andb_true_r;
    reflexivity.
Qed.

(** Each recursive call of the search is on a board with strictly fewer
    empty cells. *)
Lemma empty_cells_make_move (b : Board) (m : Z) :
  legal_move b m -> (empty_cells (make_move b m) < empty_cells b)%nat.
Proof.
  intros H. destruct (legal_move_cell b m H) as [i [Hi [-> He]]].
  unfold empty_cells. apply (filter_length_lt _ _ cells i).
  - intros c Hc. apply in_cells in Hc.
    rewrite cell_empty_make_move by assumption.
    intros Hand. now apply andb_prop in Hand.
  - now apply in_cells.
  - assumption.
  - rewrite cell_empty_make_move by assumption.
    rewrite Z.eqb_refl. apply andb_false_r.
Qed.

Lemma in_progress_legal_move (b : Board) :
  check_status b = IN_PROGRESS -> exists m, legal_move b m.
Proof.
  intros H. destruct (in_progress_empty_cell b H) as [c [Hc He]].
  exists (2 ^ c). now apply cell_empty_legal_move.
Qed.

Lemma in_progress_empty_cells (b : Board) :
  check_status b = IN_PROGRESS -> (0 < empty_cells b)%nat.
Proof.
  intros H. destruct (in_progress_legal_move b H) as [m Hm].
  pose proof (empty_cells_make_move b m Hm). lia.
Qed.

(** ** Termination of the search *)

Section LoopTotal.

Variable rec : Board -> Z -> Z -> Z -> option (Board * Z).
Variable board : Board.
Hypothesis board_wf : wf_board board.
Hypothesis rec_total :
  forall m alpha beta depth, legal_move board m ->
    exists v, rec (make_move board m) alpha beta depth
              = Some (make_move board m, v).

Lemma alphabeta_loop_total (moves : list Z) :
  (forall m, In m moves -> legal_move board m) ->
  forall alpha beta depth,
    exists v, alphabeta_loop rec moves board alpha beta depth
              = Some (board, v).
Proof.
  induction moves as [| m rest IH]; intros Hlegal alpha beta depth; simpl.
  - eauto.
  - destruct (rec_total m (- beta) (- alpha) (depth + 1)
                (Hlegal m (or_introl eq_refl))) as [v Hv].
    rewrite Hv, unmake_make_move by assumption.
    destruct (- v >=? beta); [eauto |].
    apply IH. intros m' Hm'. apply Hlegal. now right.
Qed.

End LoopTotal.

(** Fuel at least the number of empty cells is enough, and the board comes
    back as it went in. *)
Lemma alphabeta_fuel_enough (fuel : nat) :
  forall board alpha beta depth,
    wf_board board -> (empty_cells board <= fuel)%nat ->
    exists v, alphabeta fuel board alpha beta depth = Some (board, v).
Proof.
  induction fuel as [| fuel IH]; intros board alpha beta depth Hwf Hfuel;
    simpl; destruct (check_status board) eqn:Hs;
    try (destruct (cross_to_move board); eauto; fail); eauto.
  - apply in_progress_empty_cells in Hs. lia.
  - apply alphabeta_loop_total; try assumption.
    + intros m a b' d Hm. apply IH; [now apply wf_make_move |].
      pose proof (empty_cells_make_move board m Hm). lia.
    + intros m Hm. exact Hm.
Qed.

(** More fuel does not change a result. *)
Lemma alphabeta_loop_mono
    (rec rec' : Board -> Z -> Z -> Z -> option (Board * Z)) :
  (forall b alpha beta depth r,
      rec b alpha beta depth = Some r -> rec' b alpha beta depth = Some r) ->
  forall moves board alpha beta depth r,
    alphabeta_loop rec moves board alpha beta depth = Some r ->
    alphabeta_loop rec' moves board alpha beta depth = Some r.
Proof.
  intros Hrec. induction moves as [| m rest IH];
    intros board alpha beta depth r H; simpl in *; [assumption |].
  destruct (rec (make_move board m) (- beta) (- alpha) (depth + 1))
    as [[b2 v] |] eqn:Hr; [| discriminate].
  rewrite (Hrec _ _ _ _ _ Hr).
  destruct (- v >=? beta); [assumption | now apply IH].
Qed.

Lemma alphabeta_fuel_mono (fuel : nat) :
  forall fuel' board alpha beta depth r,
    (fuel <= fuel')%nat ->
    alphabeta fuel board alpha beta depth = Some r ->
    alphabeta fuel' board alpha beta depth = Some r.
Proof.
  induction fuel as [| fuel IH]; intros fuel' board alpha beta depth r Hle H;
    destruct fuel' as [| fuel']; try lia; simpl in *;
    destruct (check_status board); try assumption; try discriminate.
  eapply alphabeta_loop_mono; [| exact H].
  intros b a b0 d r0 Hr. apply (IH fuel'); [lia | assumption].
Qed.

(** The search with a log computes what the search computes. *)
Lemma alphabeta_loop_log_erase
    (rec : Board -> Z -> Z -> Z -> option (Board * Z))
    (recl : Board -> Z -> Z -> Z -> option (Board * Z * list Call)) :
  (forall b alpha beta depth,
      option_map fst (recl b alpha beta depth) = rec b alpha beta depth) ->
  forall moves board alpha beta depth,
    option_map fst (alphabeta_loop_log recl moves board alpha beta depth)
    = alphabeta_loop rec moves board alpha beta depth.
Proof.
  intros Hrec. induction moves as [| m rest IH];
    intros board alpha beta depth; simpl; [reflexivity |].
  rewrite <- Hrec.
  destruct (recl (make_move board m) (- beta) (- alpha) (depth + 1))
    as [[[b2 v] l1] |]; simpl; [| reflexivity].
  destruct (- v >=? beta); [reflexivity |].
  rewrite <- IH.
  destruct (alphabeta_loop_log recl rest (unmake_move b2 m) _ beta depth)
    as [[[b4 r] l2] |]; reflexivity.
Qed.

Lemma alphabeta_log_erase (fuel : nat) :
  forall board alpha beta depth,
    option_map fst (alphabeta_log fuel board alpha beta depth)
    = alphabeta fuel board alpha beta depth.
Proof.
  induction fuel as [| fuel IH]; intros board alpha beta depth; simpl;
    destruct (check_status board); try destruct (cross_to_move board);
    try reflexivity.
  - rewrite <- (alphabeta_loop_log_erase (alphabeta fuel) (alphabeta_log fuel) IH).
    destruct (alphabeta_loop_log _ _ _ _ _ _) as [[[b v] l] |]; reflexivity.
  - rewrite <- (alphabeta_loop_log_erase (alphabeta fuel) (alphabeta_log fuel) IH).
    destruct (alphabeta_loop_log _ _ _ _ _ _) as [[[b v] l] |]; reflexivity.
Qed.

(** ** C1: terminal evaluation *)

(** C1. Terminal evaluation of the search.  On a board whose status is DRAW
    the search returns 0; on CIRCLE_WON it returns -1 when cross is to move
    and [10 - depth] when circle is to move; on CROSS_WON it returns
    [10 - depth] when cross is to move and -1 when circle is to move.  In
    each case the search returns at once: the result needs no fuel, the
    board is untouched and the log of calls holds this call alone.  The
    value is a value of [int]: 0 and -1 are returned for every depth, and
    [10 - depth] for every depth of [int] at which the subtraction of the
    source does not overflow, that is, from -2147483637 up to [int_max]. *)
Theorem alphabeta_terminal_rule (fuel : nat) (board : Board) (alpha beta depth : Z) :
  let returns v :=
    alphabeta fuel board alpha beta depth = Some (board, v) /\
    alphabeta_log fuel board alpha beta depth
    = Some (board, v, [mkCall board alpha beta depth v]) /\
    in_int v in
  (check_status board = DRAW -> returns 0) /\
  (check_status board = CIRCLE_WON -> cross_to_move board = true ->
   returns (-1)) /\
  (check_status board = CIRCLE_WON -> cross_to_move board = false ->
   in_int depth -> in_int (10 - depth) -> returns (10 - depth)) /\
  (check_status board = CROSS_WON -> cross_to_move board = true ->
   in_int depth -> in_int (10 - depth) -> returns (10 - depth)) /\
  (check_status board = CROSS_WON -> cross_to_move board = false ->
   returns (-1)).
Proof.
  intros returns. subst returns. cbv beta.
  assert (H0 : in_int 0) by (unfold in_int, int_min, int_max; lia).
  assert (H1 : in_int (-1)) by (unfold in_int, int_min, int_max; lia).
  split; [| split; [| split; [| split]]]; intros Hs; try intros Hm;
    try intros _ Hv;
    (split; [| split; [| assumption]]);
    destruct fuel; simpl; rewrite Hs; try rewrite Hm; reflexivity.
Qed.

Lemma alphabeta_terminal_rule_witness :
  alphabeta 0 (mkBoard 141 114 true) (-100) 100 3
  = Some (mkBoard 141 114 true, 0) /\
  alphabeta 0 (mkBoard 24 7 true) (-100) 100 3
  = Some (mkBoard 24 7 true, -1) /\
  alphabeta 0 (mkBoard 24 7 false) (-100) 100 3
  = Some (mkBoard 24 7 false, 7) /\
  alphabeta 0 (mkBoard 7 24 true) (-100) 100 3
  = Some (mkBoard 7 24 true, 7) /\
  alphabeta 0 (mkBoard 7 24 false) (-100) 100 3
  = Some (mkBoard 7 24 false, -1) /\
  alphabeta 0 (mkBoard 7 24 true) (-100) 100 (-2147483637)
  = Some (mkBoard 7 24 true, int_max) /\
  alphabeta 0 (mkBoard 7 24 true) (-100) 100 int_max
  = Some (mkBoard 7 24 true, -2147483637).
Proof.
  assert (Hint : forall x, -2147483637 <= x <= 2147483647 ->
                           in_int x /\ in_int (10 - x))
    by (unfold in_int, int_min, int_max; lia).
  pose proof (alphabeta_terminal_rule 0 (mkBoard 141 114 true) (-100) 100 3)
    as (Hdraw & _).
  pose proof (alphabeta_terminal_rule 0 (mkBoard 24 7 true) (-100) 100 3)
    as (_ & Hlost_x & _).
  pose proof (alphabeta_terminal_rule 0 (mkBoard 24 7 false) (-100) 100 3)
    as (_ & _ & Hwon_o & _).
  pose proof (alphabeta_terminal_rule 0 (mkBoard 7 24 true) (-100) 100 3)
    as (_ & _ & _ & Hwon_x & _).
  pose proof (alphabeta_terminal_rule 0 (mkBoard 7 24 false) (-100) 100 3)
    as (_ & _ & _ & _ & Hlost_o).
  pose proof (alphabeta_terminal_rule 0 (mkBoard 7 24 true) (-100) 100
                (-2147483637)) as (_ & _ & _ & Hlow & _).
  pose proof (alphabeta_terminal_rule 0 (mkBoard 7 24 true) (-100) 100
                int_max) as (_ & _ & _ & Hhigh & _).
  split; [| split; [| split; [| split; [| split; [| split]]]]].
  - apply Hdraw. reflexivity.
  - apply Hlost_x; reflexivity.
  - apply Hwon_o; try reflexivity; apply (Hint 3); lia.
  - apply Hwon_x; try reflexivity; apply (Hint 3); lia.
  - apply Hlost_o; reflexivity.
  - apply Hlow; try reflexivity; apply (Hint (-2147483637)); lia.
  - apply Hhigh; try reflexivity; apply (Hint int_max); unfold int_max; lia.
Defined.

(** ** C5: apply and undo *)

(** C5. Round trip of a move.  On every board, [make_move] followed by
    [unmake_move] with the same move (any bitboard, so every single-cell
    move) gives back the board: cross occupancy, circle occupancy and side
    to move.  Consequently the search returns with the board it was given:
    whenever [alphabeta] returns, the board is the one it was called on, and
    with fuel for nine plies it does return. *)
Theorem make_unmake_round_trip (board : Board) (move : Z) :
  wf_board board ->
  unmake_move (make_move board move) move = board /\
  (forall fuel alpha beta depth b' v,
      alphabeta fuel board alpha beta depth = Some (b', v) -> b' = board) /\
  (forall alpha beta depth,
      exists v, alphabeta max_ply board alpha beta depth = Some (board, v)).
Proof.
  intros Hwf. split; [| split].
  - now apply unmake_make_move.
  - intros fuel alpha beta depth b' v H. eapply alphabeta_restores; eauto.
  - intros alpha beta depth. apply alphabeta_fuel_enough; [assumption |].
    apply empty_cells_le_9.
Qed.

Lemma make_unmake_round_trip_witness :
  unmake_move (make_move (mkBoard 17 2 false) 4) 4 = mkBoard 17 2 false.
Proof.
  apply (make_unmake_round_trip (mkBoard 17 2 false) 4).
  unfold wf_board; simpl; lia.
Defined.

(** ** C10: termination *)

(** C10. The search terminates.  A board has at most nine empty cells, each
    recursive call of [alphabeta] is on a board with strictly fewer empty
    cells than its caller's, and for every board, bounds and depth there is
    a value that [alphabeta] returns whenever it is allowed a recursion
    depth of nine or more. *)
Theorem alphabeta_terminates (board : Board) (alpha beta depth : Z) :
  wf_board board ->
  (empty_cells board <= 9)%nat /\
  (forall m, legal_move board m ->
             (empty_cells (make_move board m) < empty_cells board)%nat) /\
  exists v, forall fuel, (9 <= fuel)%nat ->
                         alphabeta fuel board alpha beta depth = Some (board, v).
Proof.
  intros Hwf. split; [apply empty_cells_le_9 |]. split.
  - intros m Hm. now apply empty_cells_make_move.
  - destruct (alphabeta_fuel_enough 9 board alpha beta depth Hwf
                (empty_cells_le_9 board)) as [v Hv].
    exists v. intros fuel Hfuel.
    now apply (alphabeta_fuel_mono 9 fuel).
Qed.

Lemma alphabeta_terminates_witness :
  exists v, forall fuel, (9 <= fuel)%nat ->
    alphabeta fuel empty_board (-100) 100 0 = Some (empty_board, v).
Proof.
  apply (alphabeta_terminates empty_board (-100) 100 0).
  unfold wf_board; simpl; lia.
Defined.

(** ** C7: invariants of reachable boards *)

Lemma land_zero_bits (x y : Z) :
  Z.land x y = 0 <->
  forall j, 0 <= j -> Z.testbit x j && Z.testbit y j = false.
Proof.
  split.
  - intros H j Hj. rewrite <- Z.land_spec, H. apply Z.bits_0.
  - intros H. apply Z.bits_inj'. intros j Hj.
    rewrite Z.land_spec, Z.bits_0. now apply H.
Qed.

Lemma toggle_range (x i : Z) :
  0 <= x < 2 ^ 9 -> 0 <= i < 9 -> 0 <= u16 (Z.lxor x (2 ^ i)) < 2 ^ 9.
Proof.
  intros Hx Hi.
  replace (u16 (Z.lxor x (2 ^ i)))
    with (Z.land (u16 (Z.lxor x (2 ^ i))) (Z.ones 9));
    [apply land_ones_range; lia |].
  apply Z.bits_inj'. intros j Hj.
  rewrite Z.land_spec, Z.testbit_ones_nonneg by lia.
  destruct (Z.ltb_spec j 9); [apply andb_true_r |].
  rewrite andb_false_r, testbit_u16, Z.lxor_spec, Z.pow2_bits_eqb by lia.
  rewrite (testbit_high 9 x j) by lia.
  replace (i =? j) with false by (symmetry; apply Z.eqb_neq; lia).
  reflexivity.
Qed.

Lemma toggle_disjoint (x y i : Z) :
  0 <= i < 9 -> Z.land x y = 0 -> Z.testbit y i = false ->
  Z.land (u16 (Z.lxor x (2 ^ i))) y = 0.
Proof.
  intros Hi Hxy Hy. apply land_zero_bits. intros j Hj.
  rewrite testbit_u16, Z.lxor_spec, Z.pow2_bits_eqb by lia.
  rewrite land_zero_bits in Hxy. specialize (Hxy j Hj).
  destruct (Z.eqb_spec i j) as [<- | Hne].
  - rewrite Hy. now rewrite andb_false_r.
  - rewrite xorb_false_r.
    destruct (Z.testbit x j); destruct (Z.testbit y j);
      destruct (j <? 16); simpl in *; congruence.
Qed.

Lemma board_inv_make_move (b : Board) (m : Z) :
  board_inv b -> legal_move b m -> board_inv (make_move b m).
Proof.
  intros (Hd & Hx & Ho) Hm. apply legal_move_iff in Hm.
  destruct Hm as (i & Hi & Hxi & Hoi & ->).
  unfold board_inv, make_move. destruct (cross_to_move b); simpl.
  - split; [now apply toggle_disjoint |]. split; [now apply toggle_range | easy].
  - split; [| split; [easy | now apply toggle_range]].
    rewrite Z.land_comm. apply toggle_disjoint; try assumption.
    now rewrite Z.land_comm.
Qed.

Lemma reachable_inv (b : Board) : reachable b -> board_inv b.
Proof.
  induction 1 as [| b m Hr IH Hm].
  - unfold board_inv; simpl. repeat split; lia.
  - now apply board_inv_make_move.
Qed.

Lemma legal_disjoint_l (b : Board) : Z.land (get_legal_moves b) (cross b) = 0.
Proof.
  apply land_zero_bits. intros j Hj. rewrite testbit_legal by assumption.
  destruct (Z.testbit (cross b) j); destruct (Z.testbit (circle b) j);
    destruct (j <? 9); reflexivity.
Qed.

Lemma legal_disjoint_r (b : Board) : Z.land (get_legal_moves b) (circle b) = 0.
Proof.
  apply land_zero_bits. intros j Hj. rewrite testbit_legal by assumption.
  destruct (Z.testbit (cross b) j); destruct (Z.testbit (circle b) j);
    destruct (j <? 9); reflexivity.
Qed.

Lemma make_move_flips (b : Board) (m : Z) :
  cross_to_move (make_move b m) = negb (cross_to_move b).
Proof. unfold make_move. now destruct (cross_to_move b). Qed.

Lemma unmake_move_flips (b : Board) (m : Z) :
  cross_to_move (unmake_move b m) = negb (cross_to_move b).
Proof. unfold unmake_move. now destruct (cross_to_move b). Qed.

(** C7. Invariants of the board.  On every board reached from the empty
    board by legal moves the two occupancy sets are disjoint and hold cells
    0 to 8 only, and the set of legal moves is disjoint from both;
    [make_move] flips the side to move and [unmake_move] flips it again; a
    further legal move leads to a board with the same properties, and
    undoing it gives the board back. *)
Theorem reachable_board_invariants (b : Board) :
  reachable b ->
  Z.land (cross b) (circle b) = 0 /\
  (forall j, Z.testbit (cross b) j = true -> 0 <= j <= 8) /\
  (forall j, Z.testbit (circle b) j = true -> 0 <= j <= 8) /\
  Z.land (get_legal_moves b) (cross b) = 0 /\
  Z.land (get_legal_moves b) (circle b) = 0 /\
  (forall m, cross_to_move (make_move b m) = negb (cross_to_move b)) /\
  (forall m, cross_to_move (unmake_move b m) = negb (cross_to_move b)) /\
  (forall m, cross_to_move (unmake_move (make_move b m) m) = cross_to_move b) /\
  (forall m, legal_move b m ->
     board_inv (make_move b m) /\ unmake_move (make_move b m) m = b).
Proof.
  intros Hr. pose proof (reachable_inv b Hr) as (Hd & Hx & Ho).
  assert (Hbits : forall x j, 0 <= x < 2 ^ 9 -> Z.testbit x j = true ->
                              0 <= j <= 8).
  { intros x j Hxr Ht.
    destruct (Z.ltb_spec j 0) as [Hneg | Hpos];
      [rewrite Z.testbit_neg_r in Ht by assumption; discriminate |].
    destruct (Z.ltb_spec j 9) as [Hlt | Hge]; [lia |].
    rewrite (testbit_high 9 x j) in Ht by lia. discriminate. }
  assert (Hwf : wf_board b) by (unfold wf_board; simpl in *; lia).
  split; [assumption |].
  split; [intros j; now apply Hbits |].
  split; [intros j; now apply Hbits |].
  split; [apply legal_disjoint_l |].
  split; [apply legal_disjoint_r |].
  split; [intros m; apply make_move_flips |].
  split; [intros m; apply unmake_move_flips |].
  split; [intros m; now rewrite (unmake_make_move b m Hwf) |].
  intros m Hm.
  split; [apply board_inv_make_move; unfold board_inv; auto |].
  now apply unmake_make_move.
Qed.

Lemma reachable_board_invariants_witness :
  Z.land (cross (make_move (make_move (make_move empty_board 1) 16) 256))
         (circle (make_move (make_move (make_move empty_board 1) 16) 256)) = 0.
Proof.
  apply (reachable_board_invariants
           (make_move (make_move (make_move empty_board 1) 16) 256)).
  repeat (apply reachable_move; [| unfold legal_move; vm_compute; tauto]).
  apply reachable_empty.
Defined.

(** ** C6: the algorithm of [check_status] *)

Lemma played_reachable (b : Board) : played b -> reachable b.
Proof. induction 1; [constructor | now constructor]. Qed.

(** C6. [check_status] is the following algorithm on cells: go through the
    eight lines (three rows, three columns, two diagonals) in order; on each
    line answer CROSS_WON if cross owns its three cells, else CIRCLE_WON if
    circle owns them; when no line is owned, answer IN_PROGRESS if some line
    has all its cells occupied by one side or empty, and DRAW otherwise.
    DRAW is answered before the board is full: the game X0 O1 X2 O4 X7 O5 X3
    O6 ends in a draw with cell 8 empty. *)
Theorem check_status_algorithm :
  (forall b, check_status b = StatusSpec.check_status_spec b) /\
  (played (mkBoard 141 114 true) /\
   check_status (mkBoard 141 114 true) = DRAW /\
   legal_move (mkBoard 141 114 true) 256).
Proof.
  split; [exact check_status_refines |]. split; [| split].
  - change (mkBoard 141 114 true) with
      (make_move (make_move (make_move (make_move (make_move (make_move
        (make_move (make_move empty_board 1) 2) 4) 16) 128) 32) 8) 64).
    repeat (apply played_move;
            [| reflexivity | unfold legal_move; vm_compute; tauto]).
    apply played_empty.
  - reflexivity.
  - unfold legal_move. vm_compute. tauto.
Qed.

(** ** C9: exchanging the sides *)

Lemma owns_both_overlap (cr ci : Z) (line : list Z) :
  In line lines -> owns cr line = true -> owns ci line = true ->
  Z.land cr ci <> 0.
Proof.
  intros Hin Hcr Hci Hd. rewrite land_zero_bits in Hd.
  destruct line as [| c line].
  - revert Hin. unfold lines. simpl. intuition discriminate.
  - pose proof (lines_cells _ c Hin (or_introl eq_refl)) as Hc.
    unfold owns in *. simpl in *.
    apply andb_prop in Hcr. apply andb_prop in Hci.
    specialize (Hd c (proj1 Hc)).
    destruct Hcr as [Hcr _]. destruct Hci as [Hci _].
    rewrite Hcr, Hci in Hd. discriminate.
Qed.

Lemma winner_swap (cr ci : Z) (ls : list (list Z)) :
  incl ls lines -> Z.land cr ci = 0 ->
  StatusSpec.winner ci cr ls
  = option_map swap_status (StatusSpec.winner cr ci ls).
Proof.
  intros Hincl Hd. induction ls as [| line ls IH]; [reflexivity |].
  simpl. rewrite IH by (intros x Hx; apply Hincl; now right).
  destruct (owns cr line) eqn:Hcr; destruct (owns ci line) eqn:Hci;
    try reflexivity.
  exfalso. apply (owns_both_overlap cr ci line); auto.
  apply Hincl. now left.
Qed.

Lemma some_completable_swap (cr ci : Z) (ls : list (list Z)) :
  StatusSpec.some_completable ci cr ls = StatusSpec.some_completable cr ci ls.
Proof.
  unfold StatusSpec.some_completable.
  induction ls as [| line ls IH]; [reflexivity |].
  simpl. rewrite IH. f_equal. apply orb_comm.
Qed.

(** C9. Exchanging the sides.  On every board of the data model, where the
    two occupancy sets are disjoint (so on every board reached by legal
    moves, see [reachable_inv]), exchanging the occupancy sets exchanges
    CROSS_WON and CIRCLE_WON in the status and leaves DRAW and IN_PROGRESS
    as they are. *)
Theorem check_status_swap_disjoint (b : Board) :
  Z.land (cross b) (circle b) = 0 ->
  check_status (swap_sides b) = swap_status (check_status b).
Proof.
  intros Hd. rewrite !check_status_refines.
  unfold StatusSpec.check_status_spec, swap_sides. cbn [cross circle].
  rewrite winner_swap by (assumption || apply incl_refl).
  rewrite some_completable_swap.
  destruct (StatusSpec.winner (cross b) (circle b) lines) as [s |];
    cbn [option_map].
  - reflexivity.
  - now destruct (StatusSpec.some_completable (cross b) (circle b) lines).
Qed.

Lemma check_status_swap_disjoint_witness :
  check_status (swap_sides (mkBoard 7 24 true))
  = swap_status (check_status (mkBoard 7 24 true)).
Proof.
  apply (check_status_swap_disjoint (mkBoard 7 24 true)). reflexivity.
Defined.

(** ** C8: the positions and values of the bot's search *)

Lemma loser_to_move_no_depth_branch (b : Board) :
  loser_to_move b -> ~ depth_branch b.
Proof.
  unfold loser_to_move, depth_branch.
  intros H [[Hs Hm] | [Hs Hm]]; rewrite Hs in H; congruence.
Qed.

(** After a move on a board in progress only the mover can own a line. *)
Lemma loser_to_move_make_move (b : Board) (m : Z) :
  check_status b = IN_PROGRESS -> loser_to_move (make_move b m).
Proof.
  intros Hs. pose proof (status_no_winner b (or_introl Hs)) as Hno.
  unfold loser_to_move.
  destruct (check_status (make_move b m)) eqn:Hs'; try exact I.
  - apply status_circle_won in Hs'. destruct Hs' as [line [Hin Ho]].
    unfold make_move in *. destruct (cross_to_move b); simpl in *; try easy.
    destruct (Hno line Hin) as [_ Hc]. congruence.
  - apply status_cross_won in Hs'. destruct Hs' as [line [Hin Ho]].
    unfold make_move in *. destruct (cross_to_move b); simpl in *; try easy.
    destruct (Hno line Hin) as [Hc _]. congruence.
Qed.

Lemma small_opp (v : Z) : small v -> small (- v).
Proof. unfold small. lia. Qed.

Lemma window_child (alpha beta : Z) :
  window alpha beta -> window (- beta) (- alpha).
Proof. unfold window, small. lia. Qed.

Section LoopSmall.

Variable rec : Board -> Z -> Z -> Z -> option (Board * Z * list Call).
Variable board : Board.
Hypothesis board_wf : wf_board board.
Hypothesis board_in_progress : check_status board = IN_PROGRESS.
Hypothesis rec_small :
  forall b alpha beta depth b' v l,
    wf_board b -> loser_to_move b -> window alpha beta ->
    rec b alpha beta depth = Some (b', v, l) ->
    b' = b /\ small v /\ Forall call_ok l.

Lemma alphabeta_loop_log_small (moves : list Z) :
  forall alpha beta depth b' v l,
    window alpha beta ->
    alphabeta_loop_log rec moves board alpha beta depth = Some (b', v, l) ->
    b' = board /\ Forall call_ok l /\ (small v \/ (v = alpha /\ moves = [])).
Proof.
  induction moves as [| m rest IH]; intros alpha beta depth b' v l Hw H;
    simpl in H.
  - inversion H; subst. auto.
  - destruct (rec (make_move board m) (- beta) (- alpha) (depth + 1))
      as [[[b2 v2] l1] |] eqn:Hrec; [| discriminate].
    apply rec_small in Hrec;
      [| now apply wf_make_move | now apply loser_to_move_make_move
       | now apply window_child].
    destruct Hrec as (-> & Hv2 & Hl1).
    rewrite unmake_make_move in H by assumption.
    destruct (Z.geb_spec (- v2) beta) as [Hge | Hlt].
    + inversion H; subst. split; [reflexivity |]. split; [assumption |].
      left. unfold window, small in *. lia.
    + destruct (alphabeta_loop_log rec rest board
                  (if - v2 >? alpha then - v2 else alpha) beta depth)
        as [[[b4 r] l2] |] eqn:Hloop; [| discriminate].
      inversion H; subst. clear H.
      assert (Hsmall : small (if - v2 >? alpha then - v2 else alpha)).
      { destruct (Z.gtb_spec (- v2) alpha); unfold window, small in *; lia. }
      apply IH in Hloop.
      * destruct Hloop as (-> & Hl2 & Hr). split; [reflexivity |].
        split; [now apply Forall_app |].
        left. destruct Hr as [Hr | [-> _]]; assumption.
      * unfold window in *. split; [now right |]. split; [easy |].
        destruct (Z.gtb_spec (- v2) alpha); lia.
Qed.

End LoopSmall.

Lemma bitloop_legal_nonempty (b : Board) :
  check_status b = IN_PROGRESS -> bitloop (get_legal_moves b) <> [].
Proof.
  intros H Hnil. destruct (in_progress_legal_move b H) as [m Hm].
  unfold legal_move in Hm. rewrite Hnil in Hm. contradiction.
Qed.

(** Below a position where the loser is to move, with bounds of the bot's
    search, every call takes a value in {-1, 0, 1} and meets a win only
    with the loser to move. *)
Lemma alphabeta_log_small (fuel : nat) :
  forall b alpha beta depth b' v l,
    wf_board b -> loser_to_move b -> window alpha beta ->
    alphabeta_log fuel b alpha beta depth = Some (b', v, l) ->
    b' = b /\ small v /\ Forall call_ok l.
Proof.
  induction fuel as [| fuel IH]; intros b alpha beta depth b' v l Hwf Hl Hw H;
    pose proof (loser_to_move_no_depth_branch b Hl) as Hnd;
    unfold loser_to_move in Hl; simpl in H;
    destruct (check_status b) eqn:Hs; try discriminate;
    try (rewrite Hl in H);
    try (inversion H; subst; split; [reflexivity |]; split;
         [unfold small; lia |];
         constructor; [| constructor];
         unfold call_ok, loser_to_move; simpl; rewrite Hs;
         repeat split; unfold small; auto; lia).
  destruct (alphabeta_loop_log (alphabeta_log fuel)
              (bitloop (get_legal_moves b)) b alpha beta depth)
    as [[[b1 v1] l1] |] eqn:Hloop; [| discriminate].
  inversion H; subst. clear H.
  apply (alphabeta_loop_log_small (alphabeta_log fuel) b Hwf Hs IH) in Hloop;
    [| assumption].
  destruct Hloop as (-> & Hl1 & Hv).
  assert (Hsm : small v).
  { destruct Hv as [Hv | [_ Hnil]]; [assumption |].
    now apply bitloop_legal_nonempty in Hnil. }
  split; [reflexivity |]. split; [assumption |].
  constructor; [| assumption].
  unfold call_ok, loser_to_move; simpl. rewrite Hs. auto.
Qed.

Lemma alphabeta_log_total (b : Board) (alpha beta depth : Z) :
  wf_board b ->
  exists v l,
    alphabeta_log max_ply b alpha beta depth = Some (b, v, l) /\
    alphabeta max_ply b alpha beta depth = Some (b, v).
Proof.
  intros Hwf.
  destruct (alphabeta_fuel_enough max_ply b alpha beta depth Hwf
              (empty_cells_le_9 b)) as [v Hv].
  pose proof (alphabeta_log_erase max_ply b alpha beta depth) as He.
  rewrite Hv in He.
  destruct (alphabeta_log max_ply b alpha beta depth) as [[[b' v'] l] |];
    simpl in He; [| discriminate].
  inversion He; subst. eauto.
Qed.

Lemma choose_loop_log_small (board : Board) (moves : list Z) :
  wf_board board -> check_status board = IN_PROGRESS ->
  exists scores calls,
    choose_loop_log moves board = Some (scores, calls) /\
    Forall2 (fun m s => move_score board m = Some s) moves scores /\
    Forall small scores /\ Forall call_ok calls.
Proof.
  intros Hwf Hs. induction moves as [| m rest IH]; cbn [choose_loop_log].
  - exists [], []. repeat split; constructor.
  - destruct (alphabeta_log_total (make_move board m) (-100) 100 0
                (wf_make_move board m Hwf)) as (v & l & Hlog & Hab).
    rewrite Hlog.
    apply alphabeta_log_small in Hlog;
      [| now apply wf_make_move | now apply loser_to_move_make_move
       | unfold window, small; lia].
    destruct Hlog as (_ & Hv & Hl).
    rewrite unmake_make_move by assumption.
    destruct IH as (scores & calls & -> & Hsc & Hsm & Hok).
    exists (- v :: scores), (l ++ calls).
    split; [reflexivity |]. split; [| split].
    + constructor; [| assumption]. unfold move_score. now rewrite Hab.
    + constructor; [now apply small_opp | assumption].
    + now apply Forall_app.
Qed.

(** C8. Positions and values of the bot's search.  When the bot chooses a
    move on a board in progress, every position on which [alphabeta] is
    called that reports a win has the loser to move, so that no call returns
    through a [10 - depth] branch; every call returns -1, 0 or 1, and so
    does every score the bot computes for a move. *)
Theorem bot_search_values (board : Board) :
  wf_board board -> check_status board = IN_PROGRESS ->
  exists scores calls,
    choose_move_log board = Some (scores, calls) /\
    Forall2 (fun m s => move_score board m = Some s)
      (bitloop (get_legal_moves board)) scores /\
    Forall (fun s => s = -1 \/ s = 0 \/ s = 1) scores /\
    Forall (fun c =>
      loser_to_move (call_board c) /\ ~ depth_branch (call_board c) /\
      (call_result c = -1 \/ call_result c = 0 \/ call_result c = 1)) calls.
Proof.
  intros Hwf Hs. unfold choose_move_log.
  now apply choose_loop_log_small.
Qed.

Lemma bot_search_values_witness :
  exists scores calls,
    choose_move_log (mkBoard 3 16 false) = Some (scores, calls) /\
    Forall2 (fun m s => move_score (mkBoard 3 16 false) m = Some s)
      (bitloop (get_legal_moves (mkBoard 3 16 false))) scores /\
    Forall (fun s => s = -1 \/ s = 0 \/ s = 1) scores /\
    Forall (fun c =>
      loser_to_move (call_board c) /\ ~ depth_branch (call_board c) /\
      (call_result c = -1 \/ call_result c = 0 \/ call_result c = 1)) calls.
Proof.
  apply (bot_search_values (mkBoard 3 16 false)).
  - unfold wf_board; simpl; lia.
  - reflexivity.
Defined.

(** ** C2: the move chosen has the best score *)

Lemma bits_range (n x : Z) :
  0 <= n -> (forall j, n <= j -> Z.testbit x j = false) -> 0 <= x < 2 ^ n.
Proof.
  intros Hn Hhigh.
  replace x with (Z.land x (Z.ones n)); [now apply land_ones_range |].
  apply Z.bits_inj'. intros j Hj.
  rewrite Z.land_spec, Z.testbit_ones_nonneg by lia.
  destruct (Z.ltb_spec j n); [apply andb_true_r |].
  rewrite andb_false_r. symmetry. now apply Hhigh.
Qed.

Lemma testbit_add_cell (x k j : Z) :
  0 <= k -> 0 <= j < 16 ->
  Z.testbit (u16 (Z.lor x (2 ^ k))) j = Z.testbit x j || (k =? j).
Proof.
  intros Hk Hj. rewrite testbit_u16, Z.lor_spec, Z.pow2_bits_eqb by lia.
  replace (j <? 16) with true by (symmetry; apply Z.ltb_lt; lia).
  apply andb_true_r.
Qed.

Lemma add_cell_range (x k : Z) :
  0 <= x < 2 ^ 9 -> 0 <= k < 9 -> 0 <= u16 (Z.lor x (2 ^ k)) < 2 ^ 9.
Proof.
  intros Hx Hk. apply bits_range; [lia |]. intros j Hj.
  rewrite testbit_u16, Z.lor_spec, Z.pow2_bits_eqb by lia.
  rewrite (testbit_high 9 x j) by lia.
  replace (k =? j) with false by (symmetry; apply Z.eqb_neq; lia).
  reflexivity.
Qed.

Lemma cell_range (k : Z) : 0 <= k < 9 -> 0 <= 2 ^ k < 2 ^ 9.
Proof.
  intros Hk. split; [apply Z.pow_nonneg; lia |].
  apply Z.pow_lt_mono_r; lia.
Qed.

Lemma cell_inj (i k : Z) : 0 <= i -> 0 <= k -> 2 ^ i = 2 ^ k -> i = k.
Proof. intros Hi Hk. apply Z.pow_inj_r; lia. Qed.

Section ChooseLoop.

Variable board : Board.
Hypothesis board_wf : wf_board board.
Hypothesis board_in_progress : check_status board = IN_PROGRESS.

Lemma move_score_small (m : Z) :
  exists s, move_score board m = Some s /\ small s /\
            alphabeta max_ply (make_move board m) (-100) 100 0
            = Some (make_move board m, - s).
Proof.
  destruct (alphabeta_log_total (make_move board m) (-100) 100 0
              (wf_make_move board m board_wf)) as (v & l & Hlog & Hab).
  apply alphabeta_log_small in Hlog;
    [| now apply wf_make_move | now apply loser_to_move_make_move
     | unfold window, small; lia].
  destruct Hlog as (_ & Hv & _).
  exists (- v). unfold move_score. rewrite Hab.
  split; [reflexivity |]. split; [now apply small_opp |].
  now rewrite Z.opp_involutive.
Qed.

Lemma best_inv_step (done : list Z) (bm bs k s : Z) :
  best_inv board done bm bs -> 0 <= k < 9 ->
  move_score board (2 ^ k) = Some s -> small s ->
  best_inv board (done ++ [2 ^ k])
    (if s >? bs then 2 ^ k else if s =? bs then u16 (Z.lor bm (2 ^ k)) else bm)
    (if s >? bs then s else bs).
Proof.
  intros (Hr & Hmax & Hbits & Hne) Hk Hs Hsm.
  destruct (Z.gtb_spec s bs) as [Hgt | Hle].
  - (* a strictly better move: it becomes the only best move *)
    split; [now apply cell_range |]. split; [| split].
    + intros m s' Hin Hm. apply in_app_or in Hin. destruct Hin as [Hin | [<- | []]].
      * specialize (Hmax m s' Hin Hm). lia.
      * rewrite Hs in Hm. inversion Hm. lia.
    + intros i Hi. rewrite Z.pow2_bits_eqb by lia. split.
      * intros He. apply Z.eqb_eq in He. subst i.
        split; [apply in_or_app; right; now left | assumption].
      * intros [Hin Hm]. apply in_app_or in Hin.
        destruct Hin as [Hin | [He | []]].
        -- specialize (Hmax _ _ Hin Hm). lia.
        -- apply cell_inj in He; [| lia | lia]. subst. apply Z.eqb_refl.
    + right. exists k. split; [assumption |].
      rewrite Z.pow2_bits_eqb by lia. apply Z.eqb_refl.
  - destruct (Z.eqb_spec s bs) as [-> | Hne'].
    + (* as good as the best: it joins the best moves *)
      split; [now apply add_cell_range |]. split; [| split].
      * intros m s' Hin Hm. apply in_app_or in Hin.
        destruct Hin as [Hin | [<- | []]]; [now apply (Hmax m) |].
        rewrite Hs in Hm. inversion Hm. lia.
      * intros i Hi. rewrite testbit_add_cell by lia. split.
        -- intros Hor. apply orb_prop in Hor. destruct Hor as [Hb | He].
           ++ apply Hbits in Hb; [| assumption]. destruct Hb as [Hin Hm].
              split; [apply in_or_app; now left | assumption].
           ++ apply Z.eqb_eq in He. subst i.
              split; [apply in_or_app; right; now left | assumption].
        -- intros [Hin Hm]. apply in_app_or in Hin.
           destruct Hin as [Hin | [He | []]].
           ++ apply orb_true_intro. left. apply Hbits; auto.
           ++ apply cell_inj in He; [| lia | lia]. subst.
              rewrite Z.eqb_refl. apply orb_true_r.
      * right. exists k. split; [assumption |].
        rewrite testbit_add_cell by lia. rewrite Z.eqb_refl. apply orb_true_r.
    + (* worse than the best: nothing changes *)
      split; [assumption |]. split; [| split].
      * intros m s' Hin Hm. apply in_app_or in Hin.
        destruct Hin as [Hin | [<- | []]]; [now apply (Hmax m) |].
        rewrite Hs in Hm. inversion Hm. lia.
      * intros i Hi. rewrite Hbits by assumption. split.
        -- intros [Hin Hm]. split; [apply in_or_app; now left | assumption].
        -- intros [Hin Hm]. apply in_app_or in Hin.
           destruct Hin as [Hin | [He | []]]; [auto |].
           apply cell_inj in He; [| lia | lia]. subst i.
           rewrite Hs in Hm. inversion Hm. lia.
      * destruct Hne as [[_ Hbs] | Hex]; [| now right].
        unfold small in Hsm. lia.
Qed.

Lemma choose_loop_best (rest : list Z) :
  forall done bm bs,
    best_inv board done bm bs ->
    (forall m, In m rest -> exists k, 0 <= k < 9 /\ m = 2 ^ k) ->
    exists bm' bs',
      choose_loop rest board bm bs = Some (board, bm', bs') /\
      best_inv board (done ++ rest) bm' bs'.
Proof.
  induction rest as [| m rest IH]; intros done bm bs Hinv Hcells;
    cbn [choose_loop].
  - exists bm, bs. now rewrite app_nil_r.
  - destruct (Hcells m (or_introl eq_refl)) as (k & Hk & ->).
    destruct (move_score_small (2 ^ k)) as (s & Hs & Hsm & Hab).
    rewrite Hab, Z.opp_involutive, unmake_make_move by assumption.
    pose proof (best_inv_step done bm bs k s Hinv Hk Hs Hsm) as Hstep.
    assert (Hrest : forall m, In m rest -> exists k, 0 <= k < 9 /\ m = 2 ^ k)
      by (intros m' Hm'; apply Hcells; now right).
    replace (done ++ 2 ^ k :: rest) with ((done ++ [2 ^ k]) ++ rest)
      by (now rewrite <- app_assoc).
    destruct (s >? bs); [now apply IH |].
    destruct (s =? bs); now apply IH.
Qed.

End ChooseLoop.

Lemma set_cell_iff (bm m : Z) :
  set_cell bm m = true <->
  exists i, 0 <= i < 9 /\ m = 2 ^ i /\ Z.testbit bm i = true.
Proof.
  unfold set_cell. rewrite existsb_exists. split.
  - intros (i & Hi & H). apply in_cells in Hi. apply andb_prop in H.
    destruct H as [He Ht]. apply Z.eqb_eq in He. eauto.
  - intros (i & Hi & -> & Ht). exists i. split; [now apply in_cells |].
    now rewrite Z.eqb_refl, Ht.
Qed.

Lemma popcount_range (x : Z) : 0 <= popcount x <= 16.
Proof.
  unfold popcount.
  pose proof (filter_length_le (Z.testbit x) bit_positions) as H.
  change (List.length bit_positions) with 16%nat in H. lia.
Qed.

Lemma uniform_int_range (a b raw : Z) :
  a <= b -> a <= uniform_int a b raw <= b.
Proof.
  intros Hab. unfold uniform_int.
  pose proof (Z.mod_pos_bound raw (b - a + 1)). lia.
Qed.

Lemma uniform_int_onto (a b k : Z) :
  a <= k <= b -> uniform_int a b (k - a) = k.
Proof.
  intros Hk. unfold uniform_int. rewrite Z.mod_small by lia. lia.
Qed.

(** The move returned is a cell of the set of best moves. *)
Lemma select_move_set_cell (bm des_bit : Z) :
  0 <= bm < 2 ^ 9 -> bm <> 0 ->
  (2 <= popcount bm -> 1 <= des_bit <= popcount bm - 1) ->
  set_cell bm (select_move bm des_bit) = true.
Proof.
  intros Hbm Hnz Hdes.
  assert (Hall : forallb select_ok (below 512) = true) by now vm_compute.
  pose proof (forallb_below _ 512 Hall bm) as Hok.
  specialize (Hok ltac:(lia)). unfold select_ok in Hok.
  pose proof (popcount_range bm) as Hpc.
  destruct (Z.leb_spec (popcount bm) 1) as [Hle | Hgt].
  - pose proof (forallb_below _ 16 Hok 0 ltac:(lia)) as H0. cbv beta in H0.
    unfold select_move in *.
    replace (popcount bm <=? 1) with true in * by (symmetry; apply Z.leb_le; lia).
    apply orb_prop in H0. destruct H0 as [H0 | H0]; [| assumption].
    apply Z.eqb_eq in H0. contradiction.
  - specialize (Hdes ltac:(lia)).
    pose proof (forallb_below _ 16 Hok des_bit ltac:(lia)) as H0.
    cbv beta in H0.
    replace (popcount bm <=? 1) with false in H0
      by (symmetry; apply Z.leb_gt; lia).
    apply orb_prop in H0. destruct H0 as [H0 | H0]; [| assumption].
    unfold in_distr in H0. apply negb_true_iff, andb_false_iff in H0.
    destruct H0 as [H0 | H0]; [apply Z.leb_gt in H0 | apply Z.leb_gt in H0]; lia.
Qed.

(** With two or more best moves the highest of them is never returned. *)
Lemma select_move_skips_top (bm des_bit : Z) :
  0 <= bm < 2 ^ 9 -> 2 <= popcount bm ->
  1 <= des_bit <= popcount bm - 1 ->
  set_cell bm (2 ^ Z.log2 bm) = true /\
  select_move bm des_bit <> 2 ^ Z.log2 bm.
Proof.
  intros Hbm Hpc Hdes.
  assert (Hall : forallb select_skips_top (below 512) = true) by now vm_compute.
  pose proof (forallb_below _ 512 Hall bm) as Hok.
  specialize (Hok ltac:(lia)). unfold select_skips_top in Hok.
  pose proof (popcount_range bm) as Hr.
  replace (popcount bm <=? 1) with false in Hok
    by (symmetry; apply Z.leb_gt; lia).
  cbn [orb] in Hok. apply andb_prop in Hok. destruct Hok as [Htop Hok].
  split; [assumption |].
  pose proof (forallb_below _ 16 Hok des_bit ltac:(lia)) as H0. cbv beta in H0.
  apply orb_prop in H0. destruct H0 as [H0 | H0].
  - unfold in_distr in H0. apply negb_true_iff, andb_false_iff in H0.
    destruct H0 as [H0 | H0]; apply Z.leb_gt in H0; lia.
  - apply negb_true_iff, Z.eqb_neq in H0. assumption.
Qed.

Lemma choose_move_eq (board : Board) (raw bm bs : Z) :
  best_moves board = Some (bm, bs) ->
  choose_move board raw
  = Some (prediction bs,
          select_move bm (uniform_int 1 (popcount bm - 1) raw)).
Proof.
  intros H. unfold choose_move, select_move. rewrite H.
  now destruct (popcount bm <=? 1).
Qed.

(** The loop of [choose_move] on a board in progress: the scratch board is
    restored, [best_score] is the best score of a legal move and [best_move]
    is the set of the legal moves that reach it. *)
Lemma best_moves_spec (board : Board) :
  wf_board board -> check_status board = IN_PROGRESS ->
  exists bm bs,
    choose_loop (bitloop (get_legal_moves board)) board 0 (-100)
    = Some (board, bm, bs) /\
    best_moves board = Some (bm, bs) /\
    0 <= bm < 2 ^ 9 /\ bm <> 0 /\
    (forall m, legal_move board m ->
       exists s, move_score board m = Some s /\ s <= bs) /\
    (forall m, set_cell bm m = true <->
               legal_move board m /\ move_score board m = Some bs).
Proof.
  intros Hwf Hs.
  assert (Hcells : forall m, In m (bitloop (get_legal_moves board)) ->
                             exists k, 0 <= k < 9 /\ m = 2 ^ k).
  { intros m Hm. apply legal_move_cell in Hm.
    destruct Hm as (i & Hi & Hm & _). eauto. }
  assert (Hinit : best_inv board [] 0 (-100)).
  { split; [simpl; lia |]. split; [intros m s [] |]. split.
    - intros i Hi. rewrite Z.bits_0. split; [discriminate | intros [[] _]].
    - left. auto. }
  destruct (choose_loop_best board Hwf Hs _ [] 0 (-100) Hinit Hcells)
    as (bm & bs & Hloop & (Hr & Hmax & Hbits & Hne)).
  cbn [app] in *.
  exists bm, bs. split; [assumption |].
  split; [unfold best_moves; now rewrite Hloop |].
  split; [assumption |].
  assert (Hex : exists i, 0 <= i < 9 /\ Z.testbit bm i = true).
  { destruct Hne as [[Hnil _] | Hex]; [| assumption].
    now apply bitloop_legal_nonempty in Hnil. }
  split; [| split].
  - intros ->. destruct Hex as (i & _ & Hi). rewrite Z.bits_0 in Hi.
    discriminate.
  - intros m Hm. destruct (move_score_small board Hwf Hs m) as (s & Hsc & _).
    exists s. split; [assumption |]. now apply (Hmax m).
  - intros m. rewrite set_cell_iff. split.
    + intros (i & Hi & -> & Ht). now apply Hbits.
    + intros [Hm Hsc]. destruct (Hcells m Hm) as (k & Hk & ->).
      exists k. split; [assumption |]. split; [reflexivity |].
      now apply Hbits.
Qed.

(** C2. The move chosen has the best score.  On every board in progress,
    whatever the random engine yields, [choose_move] returns a legal move
    whose score is the greatest score of a legal move, the score of a move
    being the negated value of [alphabeta] on the position after it, with
    bounds -100 and 100 and depth 0.  In particular a move that scores less
    than some other legal move (a losing move when a safe one exists) is
    never returned. *)
Theorem choose_move_maximal (board : Board) (raw : Z) :
  wf_board board -> check_status board = IN_PROGRESS ->
  exists out m s,
    choose_move board raw = Some (out, m) /\
    legal_move board m /\
    move_score board m = Some s /\
    (forall m', legal_move board m' ->
       exists s', move_score board m' = Some s' /\ s' <= s) /\
    (forall m1 s1 m2 s2,
       move_score board m1 = Some s1 ->
       legal_move board m2 -> move_score board m2 = Some s2 ->
       s1 < s2 -> m <> m1).
Proof.
  intros Hwf Hs.
  destruct (best_moves_spec board Hwf Hs)
    as (bm & bs & _ & Hbest & Hr & Hnz & Hmax & Hset).
  rewrite (choose_move_eq board raw bm bs Hbest).
  set (m := select_move bm (uniform_int 1 (popcount bm - 1) raw)).
  assert (Hm : set_cell bm m = true).
  { apply select_move_set_cell; try assumption.
    intros Hpc. apply uniform_int_range. lia. }
  apply Hset in Hm. destruct Hm as [Hlegal Hscore].
  exists (prediction bs), m, bs.
  split; [reflexivity |]. split; [assumption |]. split; [assumption |].
  split; [assumption |].
  intros m1 s1 m2 s2 H1 Hl2 H2 Hlt ->.
  destruct (Hmax m2 Hl2) as (s' & Hs' & Hle).
  rewrite Hscore in H1. rewrite H2 in Hs'.
  inversion H1. inversion Hs'. lia.
Qed.

(** Cross holds cells 0 and 1, circle holds cell 4 and is to move: only
    cell 2 avoids the loss, and it is the move returned. *)
Lemma choose_move_maximal_witness :
  exists out m s,
    choose_move (mkBoard 3 16 false) 0 = Some (out, m) /\
    legal_move (mkBoard 3 16 false) m /\
    move_score (mkBoard 3 16 false) m = Some s /\
    (forall m', legal_move (mkBoard 3 16 false) m' ->
       exists s', move_score (mkBoard 3 16 false) m' = Some s' /\ s' <= s) /\
    (forall m1 s1 m2 s2,
       move_score (mkBoard 3 16 false) m1 = Some s1 ->
       legal_move (mkBoard 3 16 false) m2 ->
       move_score (mkBoard 3 16 false) m2 = Some s2 ->
       s1 < s2 -> m <> m1).
Proof.
  apply (choose_move_maximal (mkBoard 3 16 false) 0).
  - unfold wf_board; simpl; lia.
  - reflexivity.
Defined.

(** ** C3: choice among tied best moves *)

(** C3 fails in the code.  Whenever two or more legal moves are tied for
    the best score, the tied move of the highest cell is never returned,
    whatever the random engine yields: the distribution ranges over
    [1, move_count - 1] and the selection loop returns the move counted
    [des_bit]-th from the lowest cell. *)
Theorem choose_move_never_top_tied (board : Board) (bm bs : Z) :
  wf_board board -> check_status board = IN_PROGRESS ->
  best_moves board = Some (bm, bs) -> 2 <= popcount bm ->
  legal_move board (2 ^ Z.log2 bm) /\
  move_score board (2 ^ Z.log2 bm) = Some bs /\
  (forall m', legal_move board m' ->
     exists s', move_score board m' = Some s' /\ s' <= bs) /\
  forall raw, exists out m,
    choose_move board raw = Some (out, m) /\ m <> 2 ^ Z.log2 bm.
Proof.
  intros Hwf Hs Hbest Hpc.
  destruct (best_moves_spec board Hwf Hs)
    as (bm' & bs' & _ & Hbest' & Hr & Hnz & Hmax & Hset).
  rewrite Hbest in Hbest'. inversion Hbest'; subst bm' bs'. clear Hbest'.
  assert (Htop : set_cell bm (2 ^ Z.log2 bm) = true).
  { apply (select_move_skips_top bm 1); try assumption. lia. }
  apply Hset in Htop. destruct Htop as [Hlegal Hscore].
  split; [assumption |]. split; [assumption |]. split; [assumption |].
  intros raw. rewrite (choose_move_eq board raw bm bs Hbest).
  eexists _, _. split; [reflexivity |].
  apply select_move_skips_top; try assumption.
  apply uniform_int_range. lia.
Qed.

(** After X4 O2 X0 O8 X1 O6 X3 circle is to move and wins with cell 5 as
    with cell 7: both moves score 1, and cell 5 is returned on every draw
    of the engine. *)
Lemma choose_move_two_tied :
  played (mkBoard 27 324 false) /\
  check_status (mkBoard 27 324 false) = IN_PROGRESS /\
  bitloop (get_legal_moves (mkBoard 27 324 false)) = [32; 128] /\
  move_score (mkBoard 27 324 false) 32 = Some 1 /\
  move_score (mkBoard 27 324 false) 128 = Some 1 /\
  forall raw,
    choose_move (mkBoard 27 324 false) raw
    = Some ("Bot gewinnt auf jeden fall"%string, 32).
Proof.
  split; [| split; [| split; [| split; [| split]]]]; try reflexivity.
  - change (mkBoard 27 324 false) with
      (make_move (make_move (make_move (make_move (make_move (make_move
        (make_move empty_board 16) 4) 1) 256) 2) 64) 8).
    repeat (apply played_move;
            [| reflexivity | unfold legal_move; vm_compute; tauto]).
    apply played_empty.
  - intros raw.
    assert (Hbest : best_moves (mkBoard 27 324 false) = Some (160, 1))
      by now vm_compute.
    rewrite (choose_move_eq _ raw 160 1 Hbest).
    change (popcount 160 - 1) with 1.
    assert (Hdes : uniform_int 1 1 raw = 1)
      by (pose proof (uniform_int_range 1 1 raw); lia).
    rewrite Hdes. reflexivity.
Qed.

(** On the empty board the nine moves are tied at score 0 and the move of
    cell 8 is never returned. *)
Lemma choose_move_never_top_tied_witness :
  best_moves empty_board = Some (511, 0) /\
  move_score empty_board 256 = Some 0 /\
  forall raw, exists out m,
    choose_move empty_board raw = Some (out, m) /\ m <> 256.
Proof.
  assert (Hwf : wf_board empty_board) by apply wf_empty_board.
  assert (Hs : check_status empty_board = IN_PROGRESS) by reflexivity.
  assert (Hpc : 2 <= popcount 511) by (apply Z.leb_le; vm_compute; reflexivity).
  assert (Hbest : best_moves empty_board = Some (511, 0))
    by (vm_compute; reflexivity).
  split; [exact Hbest |].
  pose proof (choose_move_never_top_tied empty_board 511 0 Hwf Hs Hbest Hpc)
    as (_ & Hsc & _ & Hraw).
  split; [exact Hsc | exact Hraw].
Defined.

(** The tied best moves below the highest one are all returned, each for
    some output of the engine. *)
Lemma select_move_reaches_lower (bm i : Z) :
  0 <= bm < 2 ^ 9 -> 2 <= popcount bm ->
  0 <= i < 9 -> Z.testbit bm i = true -> i <> Z.log2 bm ->
  exists des_bit,
    1 <= des_bit <= popcount bm - 1 /\ select_move bm des_bit = 2 ^ i.
Proof.
  intros Hbm Hpc Hi Hbit Htop.
  assert (Hall : forallb select_reaches_lower (below 512) = true)
    by (vm_compute; reflexivity).
  pose proof (forallb_below _ 512 Hall bm ltac:(lia)) as Hok.
  unfold select_reaches_lower in Hok.
  replace (popcount bm <=? 1) with false in Hok
    by (symmetry; apply Z.leb_gt; lia).
  cbn [orb] in Hok. rewrite forallb_forall in Hok.
  specialize (Hok i (proj2 (in_cells i) Hi)). rewrite Hbit in Hok.
  replace (i =? Z.log2 bm) with false in Hok
    by (symmetry; now apply Z.eqb_neq).
  cbn [negb orb] in Hok. apply existsb_exists in Hok.
  destruct Hok as (des_bit & _ & Hd). apply andb_prop in Hd.
  destruct Hd as [Hin Hsel]. unfold in_distr in Hin.
  apply andb_prop in Hin. destruct Hin as [H1 H2].
  apply Z.leb_le in H1. apply Z.leb_le in H2. apply Z.eqb_eq in Hsel.
  exists des_bit. split; [lia | assumption].
Qed.

Lemma choose_move_reaches_lower_tied (board : Board) (bm bs m : Z) :
  wf_board board -> check_status board = IN_PROGRESS ->
  best_moves board = Some (bm, bs) -> 2 <= popcount bm ->
  set_cell bm m = true -> m <> 2 ^ Z.log2 bm ->
  exists raw, choose_move board raw = Some (prediction bs, m).
Proof.
  intros Hwf Hs Hbest Hpc Hm Htop.
  destruct (best_moves_spec board Hwf Hs)
    as (bm' & bs' & _ & Hbest' & Hr & _).
  rewrite Hbest in Hbest'. inversion Hbest'; subst bm' bs'. clear Hbest'.
  apply set_cell_iff in Hm. destruct Hm as (i & Hi & -> & Hbit).
  destruct (select_move_reaches_lower bm i Hr Hpc Hi Hbit)
    as (des_bit & Hd & Hsel); [congruence |].
  exists (des_bit - 1). rewrite (choose_move_eq board _ bm bs Hbest).
  rewrite uniform_int_onto by lia. rewrite Hsel. reflexivity.
Qed.

(** ** C4: the bot moving first *)

Lemma bot_safe_empty_board : bot_safe 5 empty_board = true.
Proof. vm_cast_no_check (eq_refl true). Qed.

Lemma bot_safe_score (n : nat) (b : Board) :
  bot_safe n b = true -> check_status b = IN_PROGRESS ->
  exists bm bs, best_moves b = Some (bm, bs) /\ 0 <= bs.
Proof.
  intros H Hs. destruct n; cbn [bot_safe] in H; rewrite Hs in H;
    destruct (best_moves b) as [[bm bs] |]; try discriminate;
    apply andb_prop in H; destruct H as [H _];
    exists bm, bs; (split; [reflexivity | lia]).
Qed.

Lemma bot_safe_round (n : nat) (b : Board) (bm bs m m' : Z) :
  bot_safe n b = true ->
  check_status b = IN_PROGRESS ->
  best_moves b = Some (bm, bs) ->
  set_cell bm m = true ->
  check_status (make_move b m) = IN_PROGRESS ->
  legal_move (make_move b m) m' ->
  exists n', bot_safe n' (make_move (make_move b m) m') = true.
Proof.
  intros H Hs Hbest Hm Hs' Hm'.
  destruct n as [| n]; cbn [bot_safe] in H; rewrite Hs, Hbest in H;
    apply andb_prop in H; destruct H as [_ H]; [discriminate |].
  exists n. rewrite forallb_forall in H.
  assert (Hin : In m (cell_moves bm)).
  { apply in_cell_moves. apply set_cell_iff in Hm.
    destruct Hm as (i & Hi & -> & Ht). eauto. }
  specialize (H m Hin). rewrite Hs' in H.
  rewrite forallb_forall in H. now apply H.
Qed.

Lemma bot_first_safe (b : Board) :
  bot_first b -> exists n, bot_safe n b = true.
Proof.
  induction 1 as [| b bm bs m m' Hb [n IH] Hs Hbest Hm Hs' Hm'].
  - exists 5%nat. apply bot_safe_empty_board.
  - eapply bot_safe_round; eauto.
Qed.

(** C4. The bot moving first.  On the empty board the best score computed
    by [choose_move] is 0 and the prediction printed is the draw; on every
    board in progress that is reached from the empty board by rounds in
    which the bot plays one of its best moves and the opponent any legal
    move, the best score computed is not negative. *)
Theorem bot_first_never_behind :
  (exists bm, best_moves empty_board = Some (bm, 0)) /\
  (forall raw, exists m,
     choose_move empty_board raw = Some ("Unentschieden bis jetzt"%string, m)) /\
  (forall b, bot_first b -> check_status b = IN_PROGRESS ->
     exists bm bs, best_moves b = Some (bm, bs) /\ 0 <= bs).
Proof.
  assert (Hbest : best_moves empty_board = Some (511, 0))
    by (vm_compute; reflexivity).
  split; [exists 511; exact Hbest |]. split.
  - intros raw. rewrite (choose_move_eq empty_board raw 511 0 Hbest).
    eexists. reflexivity.
  - intros b Hb Hs. destruct (bot_first_safe b Hb) as [n Hn].
    apply (bot_safe_score n); assumption.
Qed.

Lemma bot_first_never_behind_witness :
  exists bm bs,
    best_moves (make_move (make_move empty_board 16) 1) = Some (bm, bs) /\
    0 <= bs.
Proof.
  apply (proj2 (proj2 bot_first_never_behind)).
  - apply (bot_first_round empty_board 511 0 16 1).
    + apply bot_first_start.
    + reflexivity.
    + vm_compute. reflexivity.
    + reflexivity.
    + reflexivity.
    + unfold legal_move. vm_compute. tauto.
  - reflexivity.
Defined.

(** * Properties of the players, the display and the game loop *)

(** ** Testing one cell of a bitboard *)

Lemma land_cell (x n : Z) :
  0 <= n -> Z.land (2 ^ n) x = if Z.testbit x n then 2 ^ n else 0.
Proof.
  intros Hn. apply Z.bits_inj'. intros j Hj.
  rewrite Z.land_spec, Z.pow2_bits_eqb by assumption.
  destruct (Z.eqb_spec n j) as [-> | Hne].
  - destruct (Z.testbit x j); [| now rewrite Z.bits_0].
    rewrite Z.pow2_bits_eqb by assumption. now rewrite Z.eqb_refl.
  - destruct (Z.testbit x n); [| now rewrite Z.bits_0].
    rewrite Z.pow2_bits_eqb by assumption.
    symmetry. now apply Z.eqb_neq.
Qed.

Lemma shiftl_1 (n : Z) : 0 <= n -> Z.shiftl 1 n = 2 ^ n.
Proof. intros Hn. rewrite Z.shiftl_mul_pow2 by assumption. lia. Qed.

Lemma land_shiftl_1_eqb (x n : Z) :
  0 <= n -> (Z.land (Z.shiftl 1 n) x =? 0) = negb (Z.testbit x n).
Proof.
  intros Hn. rewrite shiftl_1, land_cell by assumption.
  destruct (Z.testbit x n); [| reflexivity].
  apply Z.eqb_neq. pose proof (Z.pow_pos_nonneg 2 n). lia.
Qed.

Lemma u16_cell (n : Z) : 0 <= n < 16 -> u16 (Z.shiftl 1 n) = 2 ^ n.
Proof.
  intros Hn. rewrite shiftl_1 by lia. apply u16_small.
  split; [apply Z.pow_nonneg; lia | apply Z.pow_lt_mono_r; lia].
Qed.

Lemma testbit_legal_cell (b : Board) (n : Z) :
  0 <= n <= 8 ->
  Z.testbit (get_legal_moves b) n
  = StatusSpec.cell_empty (cross b) (circle b) n.
Proof.
  intros Hn. rewrite testbit_legal by lia. unfold StatusSpec.cell_empty.
  replace (n <? 9) with true by (symmetry; apply Z.ltb_lt; lia).
  apply andb_true_r.
Qed.

Lemma testbit_legal_high (b : Board) (n : Z) :
  8 < n -> Z.testbit (get_legal_moves b) n = false.
Proof.
  intros Hn. apply (testbit_high 9); [lia | | lia].
  pose proof (get_legal_moves_range b). lia.
Qed.

Lemma set_cell_in_cell_moves (bm m : Z) :
  set_cell bm m = true -> In m (cell_moves bm).
Proof.
  intros H. apply in_cell_moves. apply set_cell_iff in H.
  destruct H as (i & Hi & -> & Ht). eauto.
Qed.


(** ** Strings *)

Lemma string_app_assoc (s1 s2 s3 : string) :
  ((s1 ++ s2) ++ s3 = s1 ++ (s2 ++ s3))%string.
Proof. induction s1 as [| c s1 IH]; simpl; [reflexivity | now rewrite IH]. Qed.

Lemma string_app_nil_r (s : string) : (s ++ "" = s)%string.
Proof. induction s as [| c s IH]; simpl; [reflexivity | now rewrite IH]. Qed.

Lemma string_app_inv_head (s t1 t2 : string) :
  (s ++ t1 = s ++ t2)%string -> t1 = t2.
Proof.
  induction s as [| c s IH]; simpl; intros H; [assumption |].
  inversion H. auto.
Qed.

(** ** [HumanPlayer::choose_move] *)

(** The entries that the loop accepts are those that name an empty cell. *)
Lemma human_accepts_iff (b : Board) (number : Z) :
  (number <? 0) || (number >? 8) ||
  (Z.land (Z.shiftl 1 number) (get_legal_moves b) =? 0) = false
  <-> names_empty_cell b (Some number).
Proof.
  unfold names_empty_cell. split.
  - intros H. apply orb_false_elim in H. destruct H as [H H3].
    apply orb_false_elim in H. destruct H as [H1 H2].
    apply Z.ltb_ge in H1. rewrite Z.gtb_ltb in H2. apply Z.ltb_ge in H2.
    rewrite land_shiftl_1_eqb in H3 by assumption.
    apply negb_false_iff in H3. rewrite testbit_legal_cell in H3 by lia.
    exists number. auto.
  - intros (n & Hn & Hr & He). inversion Hn; subst n.
    rewrite land_shiftl_1_eqb by lia.
    rewrite testbit_legal_cell, He by lia.
    replace (number <? 0) with false by (symmetry; apply Z.ltb_ge; lia).
    rewrite Z.gtb_ltb.
    replace (8 <? number) with false by (symmetry; apply Z.ltb_ge; lia).
    reflexivity.
Qed.

Lemma human_loop_rejects (b : Board) (r : option Z) (rest : list (option Z))
    (out : string) :
  ~ names_empty_cell b r ->
  human_loop (get_legal_moves b) (r :: rest) out
  = human_loop (get_legal_moves b) rest (out ++ rejection)%string.
Proof.
  intros Hr. cbn [human_loop]. unfold rejection.
  rewrite <- (string_app_assoc out prompt). fold prompt.
  destruct r as [number |]; [| reflexivity].
  destruct ((number <? 0) || (number >? 8) ||
            (Z.land (Z.shiftl 1 number) (get_legal_moves b) =? 0)) eqn:Hc;
    [reflexivity |].
  apply human_accepts_iff in Hc. contradiction.
Qed.

Lemma human_loop_accepts (b : Board) (n : Z) (rest : list (option Z))
    (out : string) :
  names_empty_cell b (Some n) ->
  human_loop (get_legal_moves b) (Some n :: rest) out
  = Some (2 ^ n, rest, (out ++ prompt)%string).
Proof.
  intros Hn. cbn [human_loop].
  rewrite (proj2 (human_accepts_iff b n) Hn).
  destruct Hn as (n' & Heq & Hr & _). inversion Heq; subst n'.
  now rewrite u16_cell by lia.
Qed.

Lemma names_empty_cell_dec (b : Board) (r : option Z) :
  names_empty_cell b r \/ ~ names_empty_cell b r.
Proof.
  destruct r as [n |].
  - destruct ((n <? 0) || (n >? 8) ||
              (Z.land (Z.shiftl 1 n) (get_legal_moves b) =? 0)) eqn:Hc.
    + right. intros H. apply human_accepts_iff in H. congruence.
    + left. now apply human_accepts_iff.
  - right. intros (n & Hn & _). discriminate.
Qed.

Lemma human_loop_spec (b : Board) (input : list (option Z)) :
  forall out m rest out',
    human_loop (get_legal_moves b) input out = Some (m, rest, out') <->
    exists rejected n,
      input = rejected ++ Some n :: rest /\
      Forall (fun r => ~ names_empty_cell b r) rejected /\
      names_empty_cell b (Some n) /\
      m = 2 ^ n /\
      out' = (out ++ rejections (List.length rejected) ++ prompt)%string.
Proof.
  induction input as [| r input IH]; intros out m rest out'.
  - split; [discriminate |].
    intros (rejected & n & H & _). now destruct rejected.
  - destruct (names_empty_cell_dec b r) as [Hacc | Hrej].
    + destruct Hacc as (n & -> & Hn).
      assert (Hn' : names_empty_cell b (Some n)) by (exists n; auto).
      rewrite human_loop_accepts by assumption. split.
      * intros H. inversion H; subst. exists [], n. repeat split; auto.
      * intros (rejected & n' & Hin & Hrej & Hn'' & -> & ->).
        destruct rejected as [| r0 rejected].
        -- simpl in Hin. inversion Hin; subst. reflexivity.
        -- simpl in Hin. inversion Hin; subst. inversion Hrej; subst.
           contradiction.
    + rewrite human_loop_rejects by assumption. rewrite IH. split.
      * intros (rejected & n & -> & Hall & Hn & -> & ->).
        exists (r :: rejected), n. repeat split; auto.
        cbn [List.length rejections]. now rewrite !string_app_assoc.
      * intros (rejected & n & Hin & Hall & Hn & -> & ->).
        destruct rejected as [| r0 rejected].
        -- simpl in Hin. inversion Hin; subst. contradiction.
        -- simpl in Hin. inversion Hin; subst. inversion Hall; subst.
           exists rejected, n. repeat split; auto.
           cbn [List.length rejections]. now rewrite !string_app_assoc.
Qed.

Lemma human_loop_none (b : Board) (input : list (option Z)) :
  forall out,
    human_loop (get_legal_moves b) input out = None <->
    Forall (fun r => ~ names_empty_cell b r) input.
Proof.
  induction input as [| r input IH]; intros out.
  - split; [constructor | reflexivity].
  - destruct (names_empty_cell_dec b r) as [Hacc | Hrej].
    + destruct Hacc as (n & -> & Hn).
      assert (Hn' : names_empty_cell b (Some n)) by (exists n; auto).
      rewrite human_loop_accepts by assumption. split; [discriminate |].
      intros H. inversion H; subst. contradiction.
    + rewrite human_loop_rejects by assumption. rewrite IH. split.
      * intros H. now constructor.
      * intros H. now inversion H.
Qed.

(** The move that [HumanPlayer::choose_move] returns is a legal move: the
    move of one cell, in range and empty; the random engine is not
    touched. *)
Theorem human_choose_move_legal (name : string) (board : Board) (w w' : World)
    (m : Z) :
  player_choose_move (HumanPlayer name) board w = Some (m, w') ->
  legal_move board m /\ rng w' = rng w.
Proof.
  cbn [player_choose_move HumanPlayer]. intros H.
  destruct (human_loop (get_legal_moves board) (cin w) (cout w))
    as [[[m0 rest] out] |] eqn:Hloop; [| discriminate].
  inversion H; subst. clear H. split; [| reflexivity].
  apply human_loop_spec in Hloop.
  destruct Hloop as (rejected & n & _ & _ & (n' & Hn & Hr & He) & -> & _).
  inversion Hn; subst n'. apply cell_empty_legal_move; [lia | assumption].
Qed.

Lemma human_choose_move_legal_witness :
  legal_move (mkBoard 1 16 true) 4 /\ rng (mkWorld [] [7] "Cell (0 - 8): ") = [7].
Proof.
  apply (human_choose_move_legal "Kolia" (mkBoard 1 16 true)
           (mkWorld [Some 2] [7] "")).
  reflexivity.
Defined.

(** [HumanPlayer::choose_move] returns on the first entry that names an
    empty cell, with the move of that cell: the entries before it are used
    up, each answered by the prompt and the line "Invalid input. Please try
    again.", and the prompt of the accepted entry ends the output. *)
Theorem human_choose_move_first_valid (name : string) (board : Board)
    (w w' : World) (m : Z) :
  player_choose_move (HumanPlayer name) board w = Some (m, w') <->
  exists rejected n rest,
    cin w = rejected ++ Some n :: rest /\
    Forall (fun r => ~ names_empty_cell board r) rejected /\
    names_empty_cell board (Some n) /\
    m = 2 ^ n /\
    w' = mkWorld rest (rng w)
           (cout w ++ rejections (List.length rejected) ++ prompt)%string.
Proof.
  cbn [player_choose_move HumanPlayer]. split.
  - intros H.
    destruct (human_loop (get_legal_moves board) (cin w) (cout w))
      as [[[m0 rest] out] |] eqn:Hloop; [| discriminate].
    inversion H; subst. clear H. apply human_loop_spec in Hloop.
    destruct Hloop as (rejected & n & Hin & Hall & Hn & -> & ->).
    exists rejected, n, rest. auto.
  - intros (rejected & n & rest & Hin & Hall & Hn & -> & ->).
    assert (Hloop : human_loop (get_legal_moves board) (cin w) (cout w)
                    = Some (2 ^ n, rest,
                            (cout w ++ rejections (List.length rejected)
                               ++ prompt)%string)).
    { apply human_loop_spec. exists rejected, n. auto. }
    now rewrite Hloop.
Qed.

(** [HumanPlayer::choose_move] does not return when no entry to come names
    an empty cell: at the end of the input, and in particular on a board
    without an empty cell whatever is typed. *)
Theorem human_choose_move_never_returns (name : string) (board : Board)
    (w : World) :
  (player_choose_move (HumanPlayer name) board w = None <->
   Forall (fun r => ~ names_empty_cell board r) (cin w)) /\
  (get_legal_moves board = 0 ->
   player_choose_move (HumanPlayer name) board w = None).
Proof.
  assert (Hiff : player_choose_move (HumanPlayer name) board w = None <->
                 Forall (fun r => ~ names_empty_cell board r) (cin w)).
  { cbn [player_choose_move HumanPlayer].
    rewrite <- (human_loop_none board (cin w) (cout w)).
    destruct (human_loop (get_legal_moves board) (cin w) (cout w))
      as [[[m rest] out] |]; split; congruence. }
  split; [exact Hiff |].
  intros Hfull. apply Hiff. apply Forall_forall.
  intros r _ (n & -> & Hn & He).
  rewrite <- testbit_legal_cell, Hfull, Z.bits_0 in He by assumption.
  discriminate.
Qed.

(** ** [RandomPlayer::choose_move] *)

Lemma random_number (raw : Z) :
  uniform_int 0 8 raw = random_cell raw /\ 0 <= random_cell raw <= 8.
Proof.
  unfold uniform_int, random_cell. simpl.
  pose proof (Z.mod_pos_bound raw 9). lia.
Qed.

Lemma random_loop_step (b : Board) (raw : Z) (rest : list Z) :
  random_loop (get_legal_moves b) (raw :: rest)
  = if StatusSpec.cell_empty (cross b) (circle b) (random_cell raw)
    then Some (2 ^ random_cell raw, rest)
    else random_loop (get_legal_moves b) rest.
Proof.
  cbn [random_loop]. destruct (random_number raw) as [-> Hr].
  rewrite land_shiftl_1_eqb, testbit_legal_cell, u16_cell by lia.
  replace (random_cell raw =? -1) with false
    by (symmetry; apply Z.eqb_neq; lia).
  now destruct (StatusSpec.cell_empty (cross b) (circle b) (random_cell raw)).
Qed.

Lemma random_loop_spec (b : Board) (draws : list Z) :
  forall m rest,
    random_loop (get_legal_moves b) draws = Some (m, rest) <->
    exists missed raw,
      draws = missed ++ raw :: rest /\
      Forall (fun r => StatusSpec.cell_empty (cross b) (circle b)
                         (random_cell r) = false) missed /\
      StatusSpec.cell_empty (cross b) (circle b) (random_cell raw) = true /\
      m = 2 ^ random_cell raw.
Proof.
  induction draws as [| raw draws IH]; intros m rest.
  - split; [discriminate |]. intros (missed & r & H & _). now destruct missed.
  - rewrite random_loop_step.
    destruct (StatusSpec.cell_empty (cross b) (circle b) (random_cell raw))
      eqn:He.
    + split.
      * intros H. inversion H; subst. exists [], raw. auto.
      * intros (missed & r & Hin & Hall & Hr & ->).
        destruct missed as [| r0 missed]; simpl in Hin; inversion Hin; subst.
        -- reflexivity.
        -- inversion Hall; subst. congruence.
    + rewrite IH. split.
      * intros (missed & r & -> & Hall & Hr & ->).
        exists (raw :: missed), r. auto.
      * intros (missed & r & Hin & Hall & Hr & ->).
        destruct missed as [| r0 missed]; simpl in Hin; inversion Hin; subst.
        -- congruence.
        -- inversion Hall; subst. exists missed, r. auto.
Qed.

(** [RandomPlayer::choose_move] returns the move of the first cell drawn
    that is empty, a legal move; the draws before it, on occupied cells, are
    used up and nothing is read or written. *)
Theorem random_choose_move_first_empty (name : string) (board : Board)
    (w w' : World) (m : Z) :
  player_choose_move (RandomPlayer name) board w = Some (m, w') <->
  exists missed raw rest,
    rng w = missed ++ raw :: rest /\
    Forall (fun r => StatusSpec.cell_empty (cross board) (circle board)
                       (random_cell r) = false) missed /\
    StatusSpec.cell_empty (cross board) (circle board) (random_cell raw)
    = true /\
    m = 2 ^ random_cell raw /\ legal_move board m /\
    w' = mkWorld (cin w) rest (cout w).
Proof.
  cbn [player_choose_move RandomPlayer]. split.
  - intros H.
    destruct (random_loop (get_legal_moves board) (rng w))
      as [[m0 rest] |] eqn:Hloop; [| discriminate].
    inversion H; subst. clear H. apply random_loop_spec in Hloop.
    destruct Hloop as (missed & raw & Hin & Hall & Hr & ->).
    exists missed, raw, rest. repeat split; auto.
    apply cell_empty_legal_move; [| assumption].
    pose proof (random_number raw). lia.
  - intros (missed & raw & rest & Hin & Hall & Hr & -> & _ & ->).
    assert (Hloop : random_loop (get_legal_moves board) (rng w)
                    = Some (2 ^ random_cell raw, rest)).
    { apply random_loop_spec. exists missed, raw. auto. }
    now rewrite Hloop.
Qed.

(** Every legal move is returned by [RandomPlayer::choose_move] for some
    value of the engine, and on a board without an empty cell it does not
    return, whatever the engine yields. *)
Theorem random_choose_move_reach (name : string) (board : Board) (w : World) :
  (forall m, legal_move board m ->
     exists raw,
       player_choose_move (RandomPlayer name) board
         (mkWorld (cin w) (raw :: rng w) (cout w))
       = Some (m, mkWorld (cin w) (rng w) (cout w))) /\
  (get_legal_moves board = 0 ->
   player_choose_move (RandomPlayer name) board w = None).
Proof.
  split.
  - intros m Hm. apply legal_move_cell in Hm.
    destruct Hm as (i & Hi & -> & He). exists i.
    apply random_choose_move_first_empty.
    assert (Hc : random_cell i = i)
      by (unfold random_cell; apply Z.mod_small; lia).
    exists [], i, (rng w). rewrite Hc. repeat split; auto.
    now apply cell_empty_legal_move.
  - intros Hfull. cbn [player_choose_move RandomPlayer].
    assert (Hnone : forall draws,
               random_loop (get_legal_moves board) draws = None).
    { induction draws as [| raw draws IH]; [reflexivity |].
      rewrite random_loop_step.
      pose proof (random_number raw) as [_ Hr].
      assert (He : StatusSpec.cell_empty (cross board) (circle board)
                     (random_cell raw) = false).
      { rewrite <- testbit_legal_cell by assumption.
        rewrite Hfull. apply Z.bits_0. }
      now rewrite He. }
    now rewrite Hnone.
Qed.

(** ** [Board::show] *)

Lemma show_cell_glyph (b : Board) (sq : Z) :
  0 <= sq < 9 -> show_cell b sq = glyph (mark_at b sq) sq.
Proof.
  intros Hsq. unfold show_cell, mark_at, glyph.
  rewrite u16_cell by lia. rewrite <- shiftl_1 by lia.
  rewrite !land_shiftl_1_eqb by lia. rewrite !negb_involutive.
  destruct (Z.testbit (cross b) sq); [reflexivity |].
  destruct (Z.testbit (circle b) sq); reflexivity.
Qed.

(** The text after a glyph can be read back, and so can the mark. *)
Lemma glyph_inj (m1 m2 : Mark) (sq : Z) (r1 r2 : string) :
  (glyph m1 sq ++ r1 = glyph m2 sq ++ r2)%string -> m1 = m2 /\ r1 = r2.
Proof.
  destruct m1; destruct m2; cbn; intros H; try discriminate;
    split; try reflexivity; inversion H; try reflexivity.
Qed.

Lemma show_cell_inj (b1 b2 : Board) (sq : Z) (r1 r2 : string) :
  0 <= sq < 9 ->
  (show_cell b1 sq ++ r1 = show_cell b2 sq ++ r2)%string ->
  mark_at b1 sq = mark_at b2 sq /\ r1 = r2.
Proof.
  intros Hsq. rewrite !show_cell_glyph by assumption. apply glyph_inj.
Qed.

Lemma string_cons_inj (c : ascii) (s1 s2 : string) :
  String c s1 = String c s2 -> s1 = s2.
Proof. intros H. now inversion H. Qed.

Lemma show_unfold (b : Board) :
  show b =
  (show_cell b 6 ++ "│" ++ show_cell b 7 ++ "│" ++ show_cell b 8 ++ nl
   ++ "───┼───┼───" ++ nl
   ++ show_cell b 3 ++ "│" ++ show_cell b 4 ++ "│" ++ show_cell b 5 ++ nl
   ++ "───┼───┼───" ++ nl
   ++ show_cell b 0 ++ "│" ++ show_cell b 1 ++ "│" ++ show_cell b 2 ++ nl)%string.
Proof.
  unfold show.
  cbn [show_ranks show_files negb Z.eqb Pos.eqb Z.mul Z.add Pos.mul Pos.add
       Pos.succ].
  rewrite !string_app_assoc.
  change ("" ++ "")%string with ""%string.
  rewrite !string_app_nil_r.
  repeat (f_equal; try reflexivity).
Qed.

Lemma show_marks_eq (b1 b2 : Board) :
  show b1 = show b2 ->
  forall sq, 0 <= sq < 9 -> mark_at b1 sq = mark_at b2 sq.
Proof.
  rewrite !show_unfold. intros H.
  apply show_cell_inj in H; [| lia]. destruct H as [H6 H].
  apply string_app_inv_head in H.
  apply show_cell_inj in H; [| lia]. destruct H as [H7 H].
  apply string_app_inv_head in H.
  apply show_cell_inj in H; [| lia]. destruct H as [H8 H].
  do 2 apply string_app_inv_head in H.
  apply string_app_inv_head in H.
  apply show_cell_inj in H; [| lia]. destruct H as [H3 H].
  apply string_app_inv_head in H.
  apply show_cell_inj in H; [| lia]. destruct H as [H4 H].
  apply string_app_inv_head in H.
  apply show_cell_inj in H; [| lia]. destruct H as [H5 H].
  do 2 apply string_app_inv_head in H.
  apply string_app_inv_head in H.
  apply show_cell_inj in H; [| lia]. destruct H as [H0 H].
  apply string_app_inv_head in H.
  apply show_cell_inj in H; [| lia]. destruct H as [H1 H].
  apply string_app_inv_head in H.
  apply show_cell_inj in H; [| lia]. destruct H as [H2 _].
  intros sq Hsq.
  assert (Hc : sq = 0 \/ sq = 1 \/ sq = 2 \/ sq = 3 \/ sq = 4 \/ sq = 5 \/
               sq = 6 \/ sq = 7 \/ sq = 8) by lia.
  repeat (destruct Hc as [-> | Hc]; [assumption |]). now subst sq.
Qed.

(** [show] writes the marks of the nine cells and nothing else of the
    board: two boards are shown alike exactly when every cell has the same
    mark on both, a cell that both sides hold being marked as cross. *)
Theorem show_reads_marks (b1 b2 : Board) :
  show b1 = show b2 <->
  forall sq, 0 <= sq < 9 -> mark_at b1 sq = mark_at b2 sq.
Proof.
  split; [apply show_marks_eq |].
  intros H. rewrite !show_unfold.
  rewrite !show_cell_glyph by lia.
  now rewrite !H by lia.
Qed.

Lemma mark_at_bits (b1 b2 : Board) (sq : Z) :
  Z.testbit (cross b1) sq && Z.testbit (circle b1) sq = false ->
  Z.testbit (cross b2) sq && Z.testbit (circle b2) sq = false ->
  mark_at b1 sq = mark_at b2 sq ->
  Z.testbit (cross b1) sq = Z.testbit (cross b2) sq /\
  Z.testbit (circle b1) sq = Z.testbit (circle b2) sq.
Proof.
  unfold mark_at.
  destruct (Z.testbit (cross b1) sq); destruct (Z.testbit (circle b1) sq);
    destruct (Z.testbit (cross b2) sq); destruct (Z.testbit (circle b2) sq);
    simpl; intros; try discriminate; auto.
Qed.

(** On boards whose occupancy sets are disjoint and hold cells 0 to 8 only,
    as every board reached by legal moves, what [show] writes determines
    both occupancy sets. *)
Theorem show_determines_board (b1 b2 : Board) :
  board_inv b1 -> board_inv b2 -> show b1 = show b2 ->
  cross b1 = cross b2 /\ circle b1 = circle b2.
Proof.
  intros (Hd1 & Hx1 & Ho1) (Hd2 & Hx2 & Ho2) Hshow.
  pose proof (show_marks_eq b1 b2 Hshow) as Hmarks.
  rewrite land_zero_bits in Hd1, Hd2.
  assert (Hbits : forall j, 0 <= j ->
            Z.testbit (cross b1) j = Z.testbit (cross b2) j /\
            Z.testbit (circle b1) j = Z.testbit (circle b2) j).
  { intros j Hj. destruct (Z.ltb_spec j 9) as [Hlt | Hge].
    - apply mark_at_bits; [now apply Hd1 | now apply Hd2 |].
      apply Hmarks. lia.
    - rewrite !(testbit_high 9) by lia. auto. }
  split; apply Z.bits_inj'; intros j Hj; now apply Hbits.
Qed.

Lemma show_determines_board_witness :
  cross (mkBoard 17 2 true) = cross (mkBoard 17 2 false) /\
  circle (mkBoard 17 2 true) = circle (mkBoard 17 2 false).
Proof.
  apply (show_determines_board (mkBoard 17 2 true) (mkBoard 17 2 false)).
  - unfold board_inv; simpl. repeat split; lia.
  - unfold board_inv; simpl. repeat split; lia.
  - reflexivity.
Defined.

(** ** The players return legal moves *)

Lemma human_legal_player (name : string) : legal_player (HumanPlayer name).
Proof.
  intros b w m w' _ _. cbn [player_choose_move HumanPlayer]. intros H.
  destruct (human_loop (get_legal_moves b) (cin w) (cout w))
    as [[[m0 rest] out] |] eqn:Hloop; [| discriminate].
  inversion H; subst. apply human_loop_spec in Hloop.
  destruct Hloop as (rejected & n & _ & _ & (n' & Hn & Hr & He) & -> & _).
  inversion Hn; subst n'. apply cell_empty_legal_move; [lia | assumption].
Qed.

Lemma random_legal_player (name : string) : legal_player (RandomPlayer name).
Proof.
  intros b w m w' _ _. cbn [player_choose_move RandomPlayer]. intros H.
  destruct (random_loop (get_legal_moves b) (rng w))
    as [[m0 rest] |] eqn:Hloop; [| discriminate].
  inversion H; subst. apply random_loop_spec in Hloop.
  destruct Hloop as (missed & raw & _ & _ & He & ->).
  apply cell_empty_legal_move; [| assumption].
  pose proof (random_number raw). lia.
Qed.

(** What [bot_choose_move] does on the console, and its move as a result of
    [choose_move]. *)
Lemma bot_choose_move_spec (b : Board) (w w' : World) (m : Z) :
  bot_choose_move b w = Some (m, w') ->
  exists bm bs raw,
    best_moves b = Some (bm, bs) /\
    choose_move b raw = Some (prediction bs, m) /\
    m = select_move bm (uniform_int 1 (popcount bm - 1) raw) /\
    cin w' = cin w /\
    cout w' = (cout w ++ prediction bs ++ nl)%string /\
    ((popcount bm <= 1 /\ rng w' = rng w) \/
     (2 <= popcount bm /\ rng w = raw :: rng w')).
Proof.
  unfold bot_choose_move. intros H.
  destruct (best_moves b) as [[bm bs] |] eqn:Hbest; [| discriminate].
  destruct (Z.leb_spec (popcount bm) 1) as [Hle | Hgt].
  - injection H as <- <-. exists bm, bs, 0.
    rewrite (choose_move_eq b 0 bm bs Hbest). unfold select_move.
    replace (popcount bm <=? 1) with true by (symmetry; apply Z.leb_le; lia).
    repeat split; auto.
  - cbn [rng print] in H. destruct (rng w) as [| raw rest] eqn:Hrng;
      [discriminate |].
    injection H as <- <-. exists bm, bs, raw.
    rewrite (choose_move_eq b raw bm bs Hbest). unfold select_move.
    replace (popcount bm <=? 1) with false by (symmetry; apply Z.leb_gt; lia).
    repeat split; auto. right. split; [lia | reflexivity].
Qed.

Lemma bot_choose_move_best (b : Board) (w w' : World) (m : Z) :
  wf_board b -> check_status b = IN_PROGRESS ->
  bot_choose_move b w = Some (m, w') ->
  exists bm bs,
    best_moves b = Some (bm, bs) /\ set_cell bm m = true /\ legal_move b m.
Proof.
  intros Hwf Hs H. apply bot_choose_move_spec in H.
  destruct H as (bm & bs & raw & Hbest & _ & -> & _).
  destruct (best_moves_spec b Hwf Hs)
    as (bm' & bs' & _ & Hbest' & Hr & Hnz & _ & Hset).
  rewrite Hbest in Hbest'. inversion Hbest'; subst bm' bs'.
  assert (Hm : set_cell bm
                 (select_move bm (uniform_int 1 (popcount bm - 1) raw)) = true).
  { apply select_move_set_cell; try assumption.
    intros Hpc. apply uniform_int_range. lia. }
  exists bm, bs. split; [assumption |]. split; [assumption |].
  now apply Hset.
Qed.

Lemma bot_legal_player (name : string) : legal_player (BotPlayer name).
Proof.
  intros b w m w' Hwf Hs H. cbn [player_choose_move BotPlayer] in H.
  destruct (bot_choose_move_best b w w' m Hwf Hs H) as (bm & bs & _ & _ & Hl).
  exact Hl.
Qed.

(** ** [play] *)

Section Play.

Variables cross_player circle_player : Player.

Lemma play_loop_terminal (fuel : nat) (board : Board) (count : Z) (w : World) :
  check_status board <> IN_PROGRESS ->
  play_loop fuel cross_player circle_player board count w
  = Some (check_status board, board, print (show board) w).
Proof.
  intros Hs. destruct fuel; cbn [play_loop];
    destruct (check_status board); congruence.
Qed.

(** One iteration of the loop on a board in progress. *)
Lemma play_loop_step (fuel : nat) (board : Board) (count : Z) (w : World) :
  check_status board = IN_PROGRESS ->
  play_loop (S fuel) cross_player circle_player board count w
  = let w1 := print nl (print (show board) (print nl w)) in
    if count mod 2 =? 0 then
      match player_choose_move cross_player board
              (print (get_name cross_player ++ " (✗)" ++ nl) w1) with
      | None => None
      | Some (m, w3) =>
          play_loop fuel cross_player circle_player (make_move board m)
            (count + 1) w3
      end
    else
      match player_choose_move circle_player board
              (print (get_name circle_player ++ "(◯)" ++ nl ++ nl) w1) with
      | None => None
      | Some (m, w3) =>
          play_loop fuel cross_player circle_player (make_move board m)
            (count + 1) w3
      end.
Proof. intros Hs. cbn [play_loop]. now rewrite Hs. Qed.

Lemma play_loop_result (fuel : nat) :
  forall board count w s b' w',
    play_loop fuel cross_player circle_player board count w = Some (s, b', w') ->
    s = check_status b' /\ s <> IN_PROGRESS /\
    exists text, cout w' = (text ++ show b')%string.
Proof.
  induction fuel as [| fuel IH]; intros board count w s b' w' H.
  - cbn [play_loop] in H.
    destruct (check_status board) eqn:Hs; try discriminate;
      inversion H; subst; rewrite Hs;
      (split; [reflexivity |]; split; [discriminate |]);
      exists (cout w); reflexivity.
  - destruct (check_status board) eqn:Hs.
    + rewrite play_loop_step in H by assumption. cbv zeta in H.
      destruct (count mod 2 =? 0).
      * destruct (player_choose_move cross_player board _) as [[m w3] |];
          [| discriminate]. now apply IH in H.
      * destruct (player_choose_move circle_player board _) as [[m w3] |];
          [| discriminate]. now apply IH in H.
    + rewrite play_loop_terminal in H by congruence.
      inversion H; subst. rewrite Hs.
      split; [reflexivity |]. split; [discriminate |].
      exists (cout w). reflexivity.
    + rewrite play_loop_terminal in H by congruence.
      inversion H; subst. rewrite Hs.
      split; [reflexivity |]. split; [discriminate |].
      exists (cout w). reflexivity.
    + rewrite play_loop_terminal in H by congruence.
      inversion H; subst. rewrite Hs.
      split; [reflexivity |]. split; [discriminate |].
      exists (cout w). reflexivity.
Qed.

Hypothesis cross_legal : legal_player cross_player.
Hypothesis circle_legal : legal_player circle_player.

Lemma play_loop_played (fuel : nat) :
  forall board count w s b' w',
    wf_board board -> played board ->
    play_loop fuel cross_player circle_player board count w = Some (s, b', w') ->
    wf_board b' /\ played b'.
Proof.
  induction fuel as [| fuel IH]; intros board count w s b' w' Hwf Hp H.
  - cbn [play_loop] in H.
    destruct (check_status board); try discriminate; inversion H; subst; auto.
  - destruct (check_status board) eqn:Hs;
      try (rewrite play_loop_terminal in H by congruence;
           inversion H; subst; auto; fail).
    rewrite play_loop_step in H by assumption. cbv zeta in H.
    destruct (count mod 2 =? 0).
    + destruct (player_choose_move cross_player board _) as [[m w3] |] eqn:Hc;
        [| discriminate].
      apply cross_legal in Hc; try assumption.
      apply IH in H; [assumption | now apply wf_make_move |].
      now apply played_move.
    + destruct (player_choose_move circle_player board _) as [[m w3] |] eqn:Hc;
        [| discriminate].
      apply circle_legal in Hc; try assumption.
      apply IH in H; [assumption | now apply wf_make_move |].
      now apply played_move.
Qed.

Lemma play_loop_fuel (n : nat) :
  forall fuel board count w,
    wf_board board -> (empty_cells board <= n)%nat -> (n <= fuel)%nat ->
    play_loop fuel cross_player circle_player board count w
    = play_loop n cross_player circle_player board count w.
Proof.
  induction n as [| n IH]; intros fuel board count w Hwf He Hle.
  - assert (Hs : check_status board <> IN_PROGRESS).
    { intros Hs. apply in_progress_empty_cells in Hs. lia. }
    now rewrite !play_loop_terminal by assumption.
  - destruct fuel as [| fuel]; [lia |].
    destruct (check_status board) eqn:Hs;
      try (rewrite !play_loop_terminal by congruence; reflexivity).
    rewrite !play_loop_step by assumption. cbv zeta.
    destruct (count mod 2 =? 0).
    + destruct (player_choose_move cross_player board _) as [[m w3] |] eqn:Hc;
        [| reflexivity].
      apply cross_legal in Hc; try assumption.
      apply IH; [now apply wf_make_move | | lia].
      pose proof (empty_cells_make_move board m Hc). lia.
    + destruct (player_choose_move circle_player board _) as [[m w3] |] eqn:Hc;
        [| reflexivity].
      apply circle_legal in Hc; try assumption.
      apply IH; [now apply wf_make_move | | lia].
      pose proof (empty_cells_make_move board m Hc). lia.
Qed.

End Play.

(** The game that [play] runs ends on a board reached by legal moves made
    while the game was in progress; the status returned is that of this
    board and is not IN_PROGRESS, and the board is the last thing shown.
    The players are any two that return legal moves. *)
Theorem play_ends_on_played_board (cross_player circle_player : Player)
    (fuel : nat) (board b' : Board) (w w' : World) (s : GameStatus) :
  legal_player cross_player -> legal_player circle_player ->
  wf_board board -> played board ->
  play fuel cross_player circle_player board w = Some (s, b', w') ->
  played b' /\ s = check_status b' /\ s <> IN_PROGRESS /\
  exists text, cout w' = (text ++ show b')%string.
Proof.
  intros H1 H2 Hwf Hp H. unfold play in H.
  destruct (play_loop_played cross_player circle_player H1 H2 fuel
              board 0 w s b' w' Hwf Hp H) as [_ Hp'].
  destruct (play_loop_result cross_player circle_player fuel
              board 0 w s b' w' H) as (Hs & Hn & Hout).
  auto.
Qed.

Lemma play_ends_on_played_board_witness :
  played (mkBoard 85 42 false).
Proof.
  refine (proj1 (play_ends_on_played_board
                   (RandomPlayer "a") (RandomPlayer "b") 9 empty_board
                   (mkBoard 85 42 false)
                   (mkWorld [] [0; 1; 2; 3; 4; 5; 6; 7; 8] "")
                   (match play 9 (RandomPlayer "a") (RandomPlayer "b")
                            empty_board
                            (mkWorld [] [0; 1; 2; 3; 4; 5; 6; 7; 8] "") with
                    | Some (_, _, w') => w'
                    | None => mkWorld [] [] ""
                    end)
                   CROSS_WON _ _ _ _ _)).
  - apply random_legal_player.
  - apply random_legal_player.
  - apply wf_empty_board.
  - apply played_empty.
  - vm_compute. reflexivity.
Defined.

(** ** A draw is final *)

Lemma completable_false (own other : Z) (line : list Z) :
  StatusSpec.completable own other line = false ->
  exists c, In c line /\ Z.testbit own c = false /\ Z.testbit other c = true.
Proof.
  unfold StatusSpec.completable, StatusSpec.cell_empty.
  induction line as [| c line IH]; simpl; [discriminate |].
  intros H. apply andb_false_iff in H. destruct H as [H | H].
  - exists c. split; [now left |].
    destruct (Z.testbit own c); destruct (Z.testbit other c);
      simpl in H; try discriminate; auto.
  - destruct (IH H) as (c' & Hin & Hc'). exists c'. split; [now right | auto].
Qed.

Lemma blocked_not_completable (own other : Z) (line : list Z) (c : Z) :
  In c line -> Z.testbit own c = false -> Z.testbit other c = true ->
  StatusSpec.completable own other line = false /\ owns own line = false.
Proof.
  intros Hin Ho Ht. unfold StatusSpec.completable, owns.
  split; apply not_true_is_false; intros H; rewrite forallb_forall in H;
    specialize (H c Hin); unfold StatusSpec.cell_empty in H;
    rewrite Ho, ?Ht in H; discriminate.
Qed.

Lemma status_draw_iff (b : Board) :
  check_status b = DRAW <->
  forall line, In line lines ->
    StatusSpec.completable (cross b) (circle b) line = false /\
    StatusSpec.completable (circle b) (cross b) line = false.
Proof.
  rewrite check_status_refines. unfold StatusSpec.check_status_spec.
  pose proof (winner_cases (cross b) (circle b) lines) as Hw.
  split.
  - intros H.
    destruct (StatusSpec.winner (cross b) (circle b) lines) as [s |];
      [subst s; contradiction |].
    destruct (StatusSpec.some_completable (cross b) (circle b) lines) eqn:Hc;
      [discriminate |].
    intros line Hin. unfold StatusSpec.some_completable in Hc.
    assert (Hl : StatusSpec.completable (cross b) (circle b) line
                 || StatusSpec.completable (circle b) (cross b) line = false).
    { apply not_true_is_false. intros Ht.
      assert (He : existsb (fun line =>
                 StatusSpec.completable (cross b) (circle b) line
                 || StatusSpec.completable (circle b) (cross b) line) lines
                 = true) by (apply existsb_exists; eauto).
      congruence. }
    now apply orb_false_elim in Hl.
  - intros H.
    assert (Hno : forall line, In line lines ->
              owns (cross b) line = false /\ owns (circle b) line = false).
    { intros line Hin. destruct (H line Hin) as [H1 H2].
      apply completable_false in H1. apply completable_false in H2.
      destruct H1 as (c1 & Hc1 & Hx1 & Ho1).
      destruct H2 as (c2 & Hc2 & Hx2 & Ho2).
      split.
      - now apply (blocked_not_completable _ (circle b) line c1).
      - now apply (blocked_not_completable _ (cross b) line c2). }
    destruct (StatusSpec.winner (cross b) (circle b) lines) as [s |].
    + destruct s; try contradiction;
        destruct Hw as (line & Hin & Ho); destruct (Hno line Hin); congruence.
    + assert (Hc : StatusSpec.some_completable (cross b) (circle b) lines
                   = false).
      { apply not_true_is_false. intros Ht.
        unfold StatusSpec.some_completable in Ht.
        apply existsb_exists in Ht. destruct Ht as (line & Hin & Ht).
        destruct (H line Hin) as [H1 H2]. rewrite H1, H2 in Ht. discriminate. }
      now rewrite Hc.
Qed.

Lemma testbit_make_move (b : Board) (i c : Z) :
  0 <= i < 9 -> 0 <= c < 9 -> i <> c ->
  Z.testbit (cross (make_move b (2 ^ i))) c = Z.testbit (cross b) c /\
  Z.testbit (circle (make_move b (2 ^ i))) c = Z.testbit (circle b) c.
Proof.
  intros Hi Hc Hne. unfold make_move.
  destruct (cross_to_move b); simpl; rewrite testbit_toggle by lia;
    replace (i =? c) with false by (symmetry; now apply Z.eqb_neq);
    now rewrite xorb_false_r.
Qed.

(** A draw is final.  Once [check_status] answers DRAW, which it may do with
    cells still empty, no legal move changes the answer: declaring the draw
    early cuts off no win. *)
Theorem draw_is_final (b : Board) (m : Z) :
  check_status b = DRAW -> legal_move b m ->
  check_status (make_move b m) = DRAW.
Proof.
  intros Hs Hm. apply legal_move_iff in Hm.
  destruct Hm as (i & Hi & Hxi & Hoi & ->).
  rewrite status_draw_iff in *. intros line Hin.
  destruct (Hs line Hin) as [H1 H2].
  apply completable_false in H1. apply completable_false in H2.
  destruct H1 as (c1 & Hc1 & Hx1 & Ho1).
  destruct H2 as (c2 & Hc2 & Hx2 & Ho2).
  pose proof (lines_cells line c1 Hin Hc1) as Hr1.
  pose proof (lines_cells line c2 Hin Hc2) as Hr2.
  assert (Hn1 : i <> c1) by congruence.
  assert (Hn2 : i <> c2) by congruence.
  destruct (testbit_make_move b i c1 Hi Hr1 Hn1) as [Ex1 Eo1].
  destruct (testbit_make_move b i c2 Hi Hr2 Hn2) as [Ex2 Eo2].
  split.
  - apply (blocked_not_completable _ _ line c1); congruence.
  - apply (blocked_not_completable _ _ line c2); congruence.
Qed.

Lemma draw_is_final_witness :
  check_status (make_move (mkBoard 141 114 true) 256) = DRAW.
Proof.
  apply (draw_is_final (mkBoard 141 114 true) 256).
  - reflexivity.
  - unfold legal_move. vm_compute. tauto.
Defined.

(** ** The bot's predictions *)

Lemma bot_game_terminal (side : bool) (b b' : Board) :
  check_status b <> IN_PROGRESS -> bot_game side b b' -> b' = b.
Proof. intros Hs H. destruct H; [reflexivity | contradiction | contradiction]. Qed.

(** What the check says of the board on which a game of the bot stands. *)
Lemma bot_word_game (side : bool) (b b1 : Board) :
  bot_game side b b1 ->
  forall p n, bot_word side p n b = true ->
    exists p1 n1, bot_word side p1 n1 b1 = true /\ (p = true -> p1 = true).
Proof.
  induction 1 as [b | b b' bm bs m Hs Hturn Hbest Hset Hg IH
                    | b b' m Hs Hturn Hm Hg IH]; intros p n Hn.
  - exists p, n. auto.
  - destruct n as [| n]; cbn [bot_word] in Hn; rewrite Hs in Hn;
      [discriminate |].
    rewrite Hturn, eqb_reflx, Hbest in Hn.
    apply andb_prop in Hn. destruct Hn as [_ Hn].
    rewrite forallb_forall in Hn.
    destruct (IH (p || (0 <? bs)) n) as (p1 & n1 & H1 & Hp).
    + apply Hn. now apply set_cell_in_cell_moves.
    + exists p1, n1. split; [assumption |].
      intros ->. now apply Hp.
  - destruct n as [| n]; cbn [bot_word] in Hn; rewrite Hs in Hn;
      [discriminate |].
    rewrite Hturn in Hn.
    replace (Bool.eqb (negb side) side) with false in Hn
      by (now destruct side).
    rewrite forallb_forall in Hn. apply (IH p n). now apply Hn.
Qed.

Lemma bot_word_end (side p : bool) (n : nat) (b : Board) :
  bot_word side p n b = true -> check_status b <> IN_PROGRESS ->
  check_status b <> win_of (negb side) /\
  (p = true -> check_status b = win_of side).
Proof.
  intros Hn Hend.
  destruct n; cbn [bot_word] in Hn;
    destruct (check_status b); destruct side; destruct p; simpl in *;
    split; congruence.
Qed.

Lemma bot_word_turn (side p : bool) (n : nat) (b : Board) (bm bs : Z) :
  bot_word side p n b = true ->
  check_status b = IN_PROGRESS -> cross_to_move b = side ->
  best_moves b = Some (bm, bs) ->
  0 <= bs /\ (0 < bs -> bot_word side true n b = true).
Proof.
  intros Hn Hs Hturn Hbest.
  destruct n as [| n]; cbn [bot_word] in *; rewrite Hs in *;
    [discriminate |].
  rewrite Hturn, eqb_reflx, Hbest in *.
  apply andb_prop in Hn. destruct Hn as [H0 Hn].
  split; [now apply Z.leb_le |].
  intros Hpos. rewrite H0.
  replace (0 <? bs) with true in * by (symmetry; now apply Z.ltb_lt).
  now rewrite orb_true_r in Hn.
Qed.

Lemma bot_word_circle : bot_word false false 9 empty_board = true.
Proof. vm_cast_no_check (eq_refl true). Qed.

Lemma bot_word_cross : bot_word true false 9 empty_board = true.
Proof. vm_cast_no_check (eq_refl true). Qed.

(** The bot keeps its word.  In every game from the empty board in which
    the bot, on either side, plays its best moves against any legal moves:
    the best score at a turn of the bot is never negative, so that the loss
    is never predicted; when it is positive, and the sure win is predicted,
    every way the game can go on ends with the bot's win; and no game ends
    with the win of the other side. *)
Theorem bot_keeps_its_word (bot_is_cross : bool) (b : Board) (bm bs : Z) :
  bot_game bot_is_cross empty_board b ->
  check_status b <> win_of (negb bot_is_cross) /\
  (check_status b = IN_PROGRESS -> cross_to_move b = bot_is_cross ->
   best_moves b = Some (bm, bs) ->
   0 <= bs /\
   prediction bs <> "Bot verliert bei perfektem Spiel"%string /\
   (0 < bs ->
    forall b', bot_game bot_is_cross b b' ->
               check_status b' <> IN_PROGRESS ->
               check_status b' = win_of bot_is_cross)).
Proof.
  intros Hg.
  assert (Hn : bot_word bot_is_cross false 9 empty_board = true)
    by (destruct bot_is_cross; [apply bot_word_cross | apply bot_word_circle]).
  destruct (bot_word_game bot_is_cross empty_board b Hg false 9%nat Hn)
    as (p1 & n1 & H1 & _).
  split.
  - destruct (check_status b) eqn:Hs.
    + destruct bot_is_cross; discriminate.
    + destruct bot_is_cross; discriminate.
    + rewrite <- Hs. apply (bot_word_end bot_is_cross p1 n1 b H1). congruence.
    + rewrite <- Hs. apply (bot_word_end bot_is_cross p1 n1 b H1). congruence.
  - intros Hs Hside Hbest.
    destruct (bot_word_turn bot_is_cross p1 n1 b bm bs H1 Hs Hside Hbest)
      as [H0 Hwin].
    split; [assumption |]. split.
    + unfold prediction. destruct (Z.gtb_spec bs 0); [discriminate |].
      destruct (Z.eqb_spec bs 0); [discriminate | lia].
    + intros Hpos b' Hg' Hend.
      destruct (bot_word_game bot_is_cross b b' Hg' true n1 (Hwin Hpos))
        as (p2 & n2 & H2 & Hp).
      apply (bot_word_end bot_is_cross p2 n2 b' H2 Hend). now apply Hp.
Qed.

(** After X4 O0 X2 O6 X7 the bot, playing circle, predicts its win and wins
    with cell 3. *)
Lemma bot_keeps_its_word_witness :
  check_status (mkBoard 148 65 false) <> win_of (negb false) /\
  (check_status (mkBoard 148 65 false) = IN_PROGRESS ->
   cross_to_move (mkBoard 148 65 false) = false ->
   best_moves (mkBoard 148 65 false) = Some (8, 1) ->
   0 <= 1 /\
   prediction 1 <> "Bot verliert bei perfektem Spiel"%string /\
   (0 < 1 ->
    forall b', bot_game false (mkBoard 148 65 false) b' ->
               check_status b' <> IN_PROGRESS ->
               check_status b' = win_of false)).
Proof.
  apply (bot_keeps_its_word false (mkBoard 148 65 false) 8 1).
  apply (bot_game_other false empty_board _ 16);
    [reflexivity | reflexivity | unfold legal_move; vm_compute; tauto |].
  eapply (bot_game_bot false _ _ _ _ 1);
    [reflexivity | reflexivity | vm_compute; reflexivity | reflexivity |].
  apply (bot_game_other false _ _ 4);
    [reflexivity | reflexivity | unfold legal_move; vm_compute; tauto |].
  eapply (bot_game_bot false _ _ _ _ 64);
    [reflexivity | reflexivity | vm_compute; reflexivity | reflexivity |].
  apply (bot_game_other false _ _ 128);
    [reflexivity | reflexivity | unfold legal_move; vm_compute; tauto |].
  apply bot_game_here.
Defined.

(** With players that return legal moves the loop of [play] runs at most
    once for each empty cell, nine times at most: allowing more iterations
    changes nothing, so that a game that does not end within nine
    iterations is one in which a player did not return. *)
Theorem play_nine_iterations (cross_player circle_player : Player)
    (fuel : nat) (board : Board) (w : World) :
  legal_player cross_player -> legal_player circle_player ->
  wf_board board -> (empty_cells board <= fuel)%nat ->
  play fuel cross_player circle_player board w
  = play (empty_cells board) cross_player circle_player board w /\
  (empty_cells board <= 9)%nat.
Proof.
  intros H1 H2 Hwf Hfuel. split; [| apply empty_cells_le_9].
  unfold play. now apply play_loop_fuel.
Qed.

Lemma play_nine_iterations_witness :
  play 12 (HumanPlayer "Kolia") (BotPlayer "Silas") (mkBoard 3 16 false)
    (mkWorld [Some 5] [0] "")
  = play (empty_cells (mkBoard 3 16 false)) (HumanPlayer "Kolia")
      (BotPlayer "Silas") (mkBoard 3 16 false) (mkWorld [Some 5] [0] "").
Proof.
  apply (play_nine_iterations (HumanPlayer "Kolia") (BotPlayer "Silas") 12
           (mkBoard 3 16 false) (mkWorld [Some 5] [0] "")).
  - apply human_legal_player.
  - apply bot_legal_player.
  - unfold wf_board; simpl; lia.
  - apply Nat.leb_le. vm_compute. reflexivity.
Defined.

(** ** The bot in [play] *)

Lemma count_parity (count : Z) :
  ((count + 1) mod 2 =? 0) = negb (count mod 2 =? 0).
Proof.
  destruct (Z.eqb_spec ((count + 1) mod 2) 0);
    destruct (Z.eqb_spec (count mod 2) 0); simpl; try reflexivity;
    exfalso; Z.div_mod_to_equations; lia.
Qed.

Lemma bot_never_loses_step (bot_is_cross : bool)
    (cross_player circle_player : Player) (n : nat) (board : Board) (m : Z)
    (w w' : World) :
  bot_plays bot_is_cross cross_player circle_player ->
  wf_board board -> check_status board = IN_PROGRESS ->
  bot_never_loses bot_is_cross n board = true ->
  player_choose_move
    (if cross_to_move board then cross_player else circle_player) board w
  = Some (m, w') ->
  exists n', bot_never_loses bot_is_cross n' (make_move board m) = true.
Proof.
  intros bot_side Hwf Hs Hn Hc.
  destruct n as [| n]; cbn [bot_never_loses] in Hn; rewrite Hs in Hn;
    [discriminate |].
  exists n.
  destruct (cross_to_move board) eqn:Hm; destruct bot_is_cross;
    cbn [Bool.eqb] in Hn; destruct bot_side as [Hbot Hother].
  - rewrite Hbot in Hc.
    destruct (bot_choose_move_best board w w' m Hwf Hs Hc)
      as (bm & bs & Hbest & Hset & _).
    rewrite Hbest in Hn. rewrite forallb_forall in Hn.
    apply Hn. now apply set_cell_in_cell_moves.
  - rewrite forallb_forall in Hn. apply Hn. now apply (Hother board w m w').
  - rewrite forallb_forall in Hn. apply Hn. now apply (Hother board w m w').
  - rewrite Hbot in Hc.
    destruct (bot_choose_move_best board w w' m Hwf Hs Hc)
      as (bm & bs & Hbest & Hset & _).
    rewrite Hbest in Hn. rewrite forallb_forall in Hn.
    apply Hn. now apply set_cell_in_cell_moves.
Qed.

Lemma play_loop_bot (bot_is_cross : bool) (cross_player circle_player : Player)
    (fuel : nat) :
  bot_plays bot_is_cross cross_player circle_player ->
  forall n board count w s b' w',
    wf_board board ->
    (count mod 2 =? 0) = cross_to_move board ->
    bot_never_loses bot_is_cross n board = true ->
    play_loop fuel cross_player circle_player board count w
    = Some (s, b', w') ->
    s = DRAW \/ s = (if bot_is_cross then CROSS_WON else CIRCLE_WON).
Proof.
  intros bot_side.
  induction fuel as [| fuel IH]; intros n board count w s b' w' Hwf Hpar Hn H.
  - cbn [play_loop] in H. destruct n; cbn [bot_never_loses] in Hn;
      destruct (check_status board); try discriminate;
      injection H as <- <- <-; destruct bot_is_cross; auto; discriminate.
  - destruct (check_status board) eqn:Hs.
    + rewrite play_loop_step in H by assumption. cbv zeta in H.
      rewrite Hpar in H.
      pose proof (bot_never_loses_step bot_is_cross cross_player circle_player
                    n board) as Hstep.
      destruct (cross_to_move board) eqn:Hm.
      * destruct (player_choose_move cross_player board _) as [[m w3] |] eqn:Hc;
          [| discriminate].
        destruct (Hstep m _ w3 bot_side Hwf Hs Hn Hc) as [n' Hn'].
        apply (IH n') in H; auto using wf_make_move.
        rewrite count_parity, Hpar, make_move_flips, Hm. reflexivity.
      * destruct (player_choose_move circle_player board _) as [[m w3] |] eqn:Hc;
          [| discriminate].
        destruct (Hstep m _ w3 bot_side Hwf Hs Hn Hc) as [n' Hn'].
        apply (IH n') in H; auto using wf_make_move.
        rewrite count_parity, Hpar, make_move_flips, Hm. reflexivity.
    + rewrite play_loop_terminal in H by congruence.
      inversion H; subst. rewrite Hs. now left.
    + rewrite play_loop_terminal in H by congruence.
      injection H as <- <- <-. rewrite Hs.
      destruct n; cbn [bot_never_loses] in Hn; rewrite Hs in Hn;
        destruct bot_is_cross; try discriminate; now right.
    + rewrite play_loop_terminal in H by congruence.
      injection H as <- <- <-. rewrite Hs.
      destruct n; cbn [bot_never_loses] in Hn; rewrite Hs in Hn;
        destruct bot_is_cross; try discriminate; now right.
Qed.

Lemma bot_word_never_loses (side : bool) (n : nat) :
  forall p b, bot_word side p n b = true -> bot_never_loses side n b = true.
Proof.
  induction n as [| n IH]; intros p b H; cbn [bot_word bot_never_loses] in *;
    destruct (check_status b); try assumption; try reflexivity.
  destruct (Bool.eqb (cross_to_move b) side).
  - destruct (best_moves b) as [[bm bs] |]; [| discriminate].
    apply andb_prop in H. destruct H as [_ H].
    rewrite forallb_forall in *. intros m Hm.
    apply (IH (p || (0 <? bs))). now apply H.
  - rewrite forallb_forall in *. intros m Hm. apply (IH p). now apply H.
Qed.

Lemma bot_circle_never_loses_check : bot_never_loses false 9 empty_board = true.
Proof. apply (bot_word_never_loses false 9 false). apply bot_word_circle. Qed.

Lemma bot_cross_never_loses_check : bot_never_loses true 9 empty_board = true.
Proof. apply (bot_word_never_loses true 9 false). apply bot_word_cross. Qed.

(** The bot playing circle, the second to move as in [main], does not lose:
    against any player that returns legal moves, whatever the engine
    yields, a game that [play] starts on the empty board and brings to its
    end is a draw or won by circle. *)
Theorem bot_circle_never_loses (cross_player : Player) (name : string)
    (fuel : nat) (w w' : World) (s : GameStatus) (b' : Board) :
  legal_player cross_player ->
  play fuel cross_player (BotPlayer name) empty_board w = Some (s, b', w') ->
  s = DRAW \/ s = CIRCLE_WON.
Proof.
  intros Hlegal H. unfold play in H.
  exact (play_loop_bot false cross_player (BotPlayer name) fuel
           (conj eq_refl Hlegal) 9%nat empty_board 0 w s b' w'
           wf_empty_board eq_refl bot_circle_never_loses_check H).
Qed.

(** The bot playing cross, the first to move, does not lose either: a game
    that [play] starts on the empty board and brings to its end against any
    player that returns legal moves is a draw or won by cross. *)
Theorem bot_cross_never_loses (circle_player : Player) (name : string)
    (fuel : nat) (w w' : World) (s : GameStatus) (b' : Board) :
  legal_player circle_player ->
  play fuel (BotPlayer name) circle_player empty_board w = Some (s, b', w') ->
  s = DRAW \/ s = CROSS_WON.
Proof.
  intros Hlegal H. unfold play in H.
  exact (play_loop_bot true (BotPlayer name) circle_player fuel
           (conj eq_refl Hlegal) 9%nat empty_board 0 w s b' w'
           wf_empty_board eq_refl bot_cross_never_loses_check H).
Qed.

Lemma bot_circle_never_loses_witness : CIRCLE_WON = DRAW \/ CIRCLE_WON = CIRCLE_WON.
Proof.
  refine (bot_circle_never_loses (RandomPlayer "R") "Silas" 9
            (mkWorld [] [4; 0; 2; 0; 1; 7] "")
            (match play 9 (RandomPlayer "R") (BotPlayer "Silas") empty_board
                     (mkWorld [] [4; 0; 2; 0; 1; 7] "") with
             | Some (_, _, w') => w'
             | None => mkWorld [] [] ""
             end)
            CIRCLE_WON (mkBoard 22 73 true) _ _).
  - apply random_legal_player.
  - vm_compute. reflexivity.
Defined.

Lemma bot_cross_never_loses_witness : CROSS_WON = DRAW \/ CROSS_WON = CROSS_WON.
Proof.
  refine (bot_cross_never_loses (RandomPlayer "R") "Silas" 9
            (mkWorld [] [0; 1; 2; 3; 4] "")
            (match play 9 (BotPlayer "Silas") (RandomPlayer "R") empty_board
                     (mkWorld [] [0; 1; 2; 3; 4] "") with
             | Some (_, _, w') => w'
             | None => mkWorld [] [] ""
             end)
            CROSS_WON (mkBoard 73 18 false) _ _).
  - apply random_legal_player.
  - vm_compute. reflexivity.
Defined.

(** Two bots against each other draw: whatever the engine yields, a game
    that [play] starts on the empty board between two [BotPlayer]s and brings
    to its end returns DRAW. *)
Theorem bot_against_bot_draws (name1 name2 : string) (fuel : nat)
    (w w' : World) (s : GameStatus) (b' : Board) :
  play fuel (BotPlayer name1) (BotPlayer name2) empty_board w
  = Some (s, b', w') ->
  s = DRAW.
Proof.
  intros H. unfold play in H.
  pose proof (play_loop_bot false (BotPlayer name1) (BotPlayer name2) fuel
                (conj eq_refl (bot_legal_player name1)) 9%nat empty_board 0
                w s b' w' wf_empty_board eq_refl
                bot_circle_never_loses_check H) as H1.
  pose proof (play_loop_bot true (BotPlayer name1) (BotPlayer name2) fuel
                (conj eq_refl (bot_legal_player name2)) 9%nat empty_board 0
                w s b' w' wf_empty_board eq_refl
                bot_cross_never_loses_check H) as H2.
  destruct H1 as [-> | ->]; [reflexivity |].
  destruct H2 as [H2 | H2]; discriminate H2.
Qed.

Lemma bot_against_bot_draws_witness : DRAW = DRAW.
Proof.
  refine (bot_against_bot_draws "A" "B" 9
            (mkWorld [] [3; 1; 4; 1; 5; 9] "")
            (match play 9 (BotPlayer "A") (BotPlayer "B") empty_board
                     (mkWorld [] [3; 1; 4; 1; 5; 9] "") with
             | Some (_, _, w') => w'
             | None => mkWorld [] [] ""
             end)
            DRAW (mkBoard 398 113 false) _).
  vm_compute. reflexivity.
Defined.

(** ** [main] *)

Lemma play_loop_mono (cross_player circle_player : Player) (fuel : nat) :
  forall fuel' board count w r,
    (fuel <= fuel')%nat ->
    play_loop fuel cross_player circle_player board count w = Some r ->
    play_loop fuel' cross_player circle_player board count w = Some r.
Proof.
  induction fuel as [| fuel IH]; intros fuel' board count w r Hle H.
  - cbn [play_loop] in H.
    destruct (check_status board) eqn:Hs; try discriminate;
      rewrite play_loop_terminal by congruence; now rewrite Hs.
  - destruct fuel' as [| fuel']; [lia |].
    destruct (check_status board) eqn:Hs;
      try (rewrite play_loop_terminal in * by congruence; assumption).
    rewrite play_loop_step in * by assumption. cbv zeta in *.
    destruct (count mod 2 =? 0).
    + destruct (player_choose_move cross_player board _) as [[m w3] |];
        [| discriminate]. apply IH; [lia | assumption].
    + destruct (player_choose_move circle_player board _) as [[m w3] |];
        [| discriminate]. apply IH; [lia | assumption].
Qed.

(** [main], a human playing cross against the bot: whatever is typed and
    whatever the engine yields, a game brought to its end is a draw or won
    by the bot, on a board reached by legal moves; the output ends with
    that board, an empty line and the banner of the draw or of the bot's
    win, never that of the human; and no more than nine iterations of the
    game loop are needed. *)
Theorem main_outcome (fuel : nat) (w w' : World) (s : GameStatus) :
  main fuel w = Some (s, w') ->
  (s = DRAW \/ s = CIRCLE_WON) /\
  (exists text b',
     played b' /\ check_status b' = s /\
     cout w' = (text ++ show b' ++ nl ++
                (match s with
                 | DRAW => "======== DRAW ========"
                 | _ => "======== Silas WON ========"
                 end) ++ nl ++ nl)%string) /\
  (forall fuel', (9 <= fuel')%nat -> main fuel' w = Some (s, w')).
Proof.
  unfold main. cbv zeta. change (mkBoard 0 0 true) with empty_board.
  set (w2 := print _ (print _ w)).
  destruct (play fuel (HumanPlayer "Kolia") (BotPlayer "Silas")
              empty_board w2) as [[[s0 b'] w3] |] eqn:Hplay;
    [| discriminate].
  intros H. injection H as <- <-.
  assert (Hres : s0 = DRAW \/ s0 = CIRCLE_WON).
  { exact (play_loop_bot false (HumanPlayer "Kolia") (BotPlayer "Silas") fuel
             (conj eq_refl (human_legal_player "Kolia")) 9%nat empty_board 0
             w2 s0 b' w3 wf_empty_board eq_refl
             bot_circle_never_loses_check Hplay). }
  split; [assumption |]. split.
  - destruct (play_loop_played _ _ (human_legal_player "Kolia")
                (bot_legal_player "Silas") fuel empty_board 0 w2 s0 b' w3
                wf_empty_board played_empty Hplay) as [_ Hp].
    destruct (play_loop_result _ _ fuel empty_board 0 w2 s0 b' w3 Hplay)
      as (Hs & _ & text & Hout).
    exists text, b'. split; [assumption |]. split; [now symmetry |].
    cbn [print cout]. rewrite Hout.
    destruct Hres as [-> | ->]; cbn [banner get_name BotPlayer];
      now rewrite !string_app_assoc.
  - intros fuel' Hfuel'.
    assert (Hplay' : play fuel' (HumanPlayer "Kolia") (BotPlayer "Silas")
                      empty_board w2 = Some (s0, b', w3)).
    { unfold play in *.
      rewrite (play_loop_fuel _ _ (human_legal_player "Kolia")
                 (bot_legal_player "Silas") 9 fuel' empty_board 0 w2
                 wf_empty_board (empty_cells_le_9 _) Hfuel').
      destruct (Nat.le_ge_cases fuel 9) as [Hle | Hge].
      - now apply (play_loop_mono _ _ fuel).
      - rewrite <- (play_loop_fuel _ _ (human_legal_player "Kolia")
                     (bot_legal_player "Silas") 9 fuel empty_board 0 w2
                     wf_empty_board (empty_cells_le_9 _) Hge).
        assumption. }
    now rewrite Hplay'.
Qed.

Lemma main_outcome_witness : CIRCLE_WON = DRAW \/ CIRCLE_WON = CIRCLE_WON.
Proof.
  refine (proj1 (main_outcome 9
            (mkWorld [Some 4; None; Some 9; Some 0; Some 0; Some 2; Some 7]
               [0; 0; 0] "")
            (match main 9
                     (mkWorld [Some 4; None; Some 9; Some 0; Some 0; Some 2;
                               Some 7] [0; 0; 0] "") with
             | Some (_, w') => w'
             | None => mkWorld [] [] ""
             end)
            CIRCLE_WON _)).
  vm_compute. reflexivity.
Defined.

(** ** The bounds of the search *)

Lemma alphabeta_loop_within (rec : Board -> Z -> Z -> Z -> option (Board * Z))
    (moves : list Z) :
  forall board alpha beta depth b' v,
    alpha <= beta ->
    alphabeta_loop rec moves board alpha beta depth = Some (b', v) ->
    alpha <= v <= beta.
Proof.
  induction moves as [| m rest IH]; intros board alpha beta depth b' v Hab H;
    cbn [alphabeta_loop] in H.
  - inversion H; subst. lia.
  - destruct (rec (make_move board m) (- beta) (- alpha) (depth + 1))
      as [[b2 v2] |]; [| discriminate].
    destruct (Z.geb_spec (- v2) beta) as [Hge | Hlt].
    + inversion H; subst. lia.
    + apply IH in H; destruct (Z.gtb_spec (- v2) alpha); lia.
Qed.

(** [alphabeta] is fail-hard: on a board in progress, called with
    [alpha <= beta], it returns a value between [alpha] and [beta]; on a
    board that is not in progress the bounds play no part. *)
Theorem alphabeta_within_bounds (fuel : nat) (board b' : Board)
    (alpha beta depth v : Z) :
  alpha <= beta ->
  alphabeta fuel board alpha beta depth = Some (b', v) ->
  (check_status board = IN_PROGRESS -> alpha <= v <= beta) /\
  (check_status board <> IN_PROGRESS ->
   forall alpha' beta',
     alphabeta fuel board alpha' beta' depth = Some (b', v)).
Proof.
  intros Hab H. split.
  - intros Hs. destruct fuel as [| fuel]; cbn [alphabeta] in H;
      rewrite Hs in H; [discriminate |].
    now apply alphabeta_loop_within in H.
  - intros Hs alpha' beta'.
    destruct fuel; cbn [alphabeta] in *;
      destruct (check_status board); congruence.
Qed.

Lemma alphabeta_within_bounds_witness :
  -1 <= 0 <= 1.
Proof.
  refine (proj1 (alphabeta_within_bounds 9 (mkBoard 3 16 false)
                   (mkBoard 3 16 false) (-1) 1 0 0 _ _) _).
  - lia.
  - vm_compute. reflexivity.
  - reflexivity.
Defined.

(** ** The search against the search without bounds *)

Lemma negamax_loop_total (rec : Board -> Z -> option Z) (board : Board)
    (depth : Z) (moves : list Z) :
  (forall m, In m moves ->
             exists v, rec (make_move board m) (depth + 1) = Some v) ->
  forall best,
    exists nm, negamax_loop rec moves board best depth = Some nm /\ best <= nm.
Proof.
  induction moves as [| m rest IH]; intros Hrec best; cbn [negamax_loop].
  - exists best. split; [reflexivity | lia].
  - destruct (Hrec m (or_introl eq_refl)) as [v Hv]. rewrite Hv.
    destruct (IH (fun m' Hm' => Hrec m' (or_intror Hm')) (Z.max best (- v)))
      as (nm & Hnm & Hle).
    exists nm. split; [assumption | lia].
Qed.

Section Clamp.

Variable rec_ab : Board -> Z -> Z -> Z -> option (Board * Z).
Variable rec_nm : Board -> Z -> option Z.
Variable board : Board.
Variable depth : Z.
Hypothesis board_wf : wf_board board.
Hypothesis rec_agree :
  forall m, legal_move board m ->
    exists nm_c,
      rec_nm (make_move board m) (depth + 1) = Some nm_c /\
      forall a b, -100 <= a < b /\ b <= 100 ->
        exists v_c,
          rec_ab (make_move board m) a b (depth + 1)
          = Some (make_move board m, v_c) /\
          (v_c = nm_c \/ v_c = Z.max a (Z.min b nm_c)).

Lemma alphabeta_loop_clamps (moves : list Z) :
  (forall m, In m moves -> legal_move board m) ->
  forall alpha beta best,
    -100 <= alpha < beta /\ beta <= 100 -> best <= alpha ->
    exists nm,
      negamax_loop rec_nm moves board best depth = Some nm /\
      best <= nm /\
      alphabeta_loop rec_ab moves board alpha beta depth
      = Some (board, Z.min beta (Z.max alpha nm)).
Proof.
  induction moves as [| m rest IH]; intros Hlegal alpha beta best Hw Hb.
  - exists best. cbn [negamax_loop alphabeta_loop].
    split; [reflexivity |]. split; [lia |]. do 2 f_equal. lia.
  - assert (Hrest : forall m', In m' rest -> legal_move board m')
      by (intros m' Hm'; apply Hlegal; now right).
    destruct (rec_agree m (Hlegal m (or_introl eq_refl)))
      as (nm_c & Hnm_c & Hab).
    destruct (Hab (- beta) (- alpha) ltac:(lia)) as (v_c & Hv_c & Hrel).
    cbn [negamax_loop alphabeta_loop]. rewrite Hnm_c, Hv_c.
    rewrite unmake_make_move by assumption.
    destruct (Z.geb_spec (- v_c) beta) as [Hge | Hlt].
    + destruct (negamax_loop_total rec_nm board depth rest
                  (fun m' Hm' =>
                     let (nm', H') := rec_agree m' (Hrest m' Hm') in
                     ex_intro _ nm' (proj1 H'))
                  (Z.max best (- nm_c))) as (nm & Hnm & Hle).
      exists nm. split; [assumption |]. split; [lia |].
      do 2 f_equal. lia.
    + destruct (IH Hrest (if - v_c >? alpha then - v_c else alpha) beta
                  (Z.max best (- nm_c))) as (nm & Hnm & Hle & Hloop).
      * destruct (Z.gtb_spec (- v_c) alpha); lia.
      * destruct (Z.gtb_spec (- v_c) alpha); lia.
      * exists nm. split; [assumption |]. split; [lia |].
        rewrite Hloop. do 2 f_equal.
        destruct (Z.gtb_spec (- v_c) alpha); lia.
Qed.

End Clamp.

Lemma alphabeta_negamax (fuel : nat) :
  forall board depth,
    wf_board board -> (empty_cells board <= fuel)%nat ->
    exists nm,
      negamax fuel board depth = Some nm /\
      forall alpha beta, -100 <= alpha < beta /\ beta <= 100 ->
        alphabeta fuel board alpha beta depth
        = Some (board,
                match check_status board with
                | IN_PROGRESS => Z.max alpha (Z.min beta nm)
                | _ => nm
                end).
Proof.
  induction fuel as [| fuel IH]; intros board depth Hwf Hfuel.
  - destruct (check_status board) eqn:Hs.
    + apply in_progress_empty_cells in Hs. lia.
    + exists 0. cbn [negamax alphabeta]. rewrite Hs. auto.
    + eexists. cbn [negamax alphabeta]. rewrite Hs.
      split; [reflexivity |]. intros. now destruct (cross_to_move board).
    + eexists. cbn [negamax alphabeta]. rewrite Hs.
      split; [reflexivity |]. intros. now destruct (cross_to_move board).
  - destruct (check_status board) eqn:Hs.
    + assert (Hagree : forall m, legal_move board m ->
                exists nm_c,
                  negamax fuel (make_move board m) (depth + 1) = Some nm_c /\
                  forall a b, -100 <= a < b /\ b <= 100 ->
                    exists v_c,
                      alphabeta fuel (make_move board m) a b (depth + 1)
                      = Some (make_move board m, v_c) /\
                      (v_c = nm_c \/ v_c = Z.max a (Z.min b nm_c))).
      { intros m Hm.
        destruct (IH (make_move board m) (depth + 1)) as (nm_c & Hnm & Hab).
        - now apply wf_make_move.
        - pose proof (empty_cells_make_move board m Hm). lia.
        - exists nm_c. split; [assumption |]. intros a b Hw.
          eexists. split; [now apply Hab |].
          destruct (check_status (make_move board m)); auto. }
      destruct (alphabeta_loop_clamps (alphabeta fuel) (negamax fuel) board
                  depth Hwf Hagree (bitloop (get_legal_moves board))
                  (fun m Hm => Hm) (-100) 100 (-100) ltac:(lia) ltac:(lia))
        as (nm & Hnm & _ & _).
      exists nm. cbn [negamax alphabeta]. rewrite Hs.
      split; [assumption |]. intros alpha beta Hw.
      destruct (alphabeta_loop_clamps (alphabeta fuel) (negamax fuel) board
                  depth Hwf Hagree (bitloop (get_legal_moves board))
                  (fun m Hm => Hm) alpha beta (-100) Hw ltac:(lia))
        as (nm' & Hnm' & _ & Hloop).
      rewrite Hnm in Hnm'. inversion Hnm'; subst nm'.
      rewrite Hloop. do 2 f_equal. lia.
    + exists 0. cbn [negamax alphabeta]. rewrite Hs. auto.
    + eexists. cbn [negamax alphabeta]. rewrite Hs.
      split; [reflexivity |]. intros. now destruct (cross_to_move board).
    + eexists. cbn [negamax alphabeta]. rewrite Hs.
      split; [reflexivity |]. intros. now destruct (cross_to_move board).
Qed.

(** Pruning changes no value.  For bounds within [-100, 100], [alphabeta] on
    a board in progress returns the value of the search without bounds,
    brought into [alpha, beta]; on a board that is not in progress it returns
    that value itself.  In particular a narrower window gives the value of
    the full window, brought into it. *)
Theorem alphabeta_clamps_negamax (board : Board) (depth : Z) :
  wf_board board ->
  exists nm,
    negamax max_ply board depth = Some nm /\
    forall alpha beta, -100 <= alpha < beta /\ beta <= 100 ->
      alphabeta max_ply board alpha beta depth
      = Some (board,
              match check_status board with
              | IN_PROGRESS => Z.max alpha (Z.min beta nm)
              | _ => nm
              end).
Proof.
  intros Hwf. apply alphabeta_negamax; [assumption | apply empty_cells_le_9].
Qed.

Lemma alphabeta_clamps_negamax_witness :
  exists nm,
    negamax max_ply (mkBoard 3 16 false) 0 = Some nm /\
    forall alpha beta, -100 <= alpha < beta /\ beta <= 100 ->
      alphabeta max_ply (mkBoard 3 16 false) alpha beta 0
      = Some (mkBoard 3 16 false,
              match check_status (mkBoard 3 16 false) with
              | IN_PROGRESS => Z.max alpha (Z.min beta nm)
              | _ => nm
              end).
Proof.
  apply (alphabeta_clamps_negamax (mkBoard 3 16 false) 0).
  unfold wf_board; simpl; lia.
Defined.

(** The score that the bot gives a legal move on a board in progress is the
    negated value of the search without bounds on the position after the
    move: -1, 0 or 1, untouched by the pruning and by the bounds. *)
Theorem move_score_exact (board : Board) (m : Z) :
  wf_board board -> check_status board = IN_PROGRESS ->
  exists nm,
    negamax max_ply (make_move board m) 0 = Some nm /\
    move_score board m = Some (- nm) /\
    (nm = -1 \/ nm = 0 \/ nm = 1).
Proof.
  intros Hwf Hs.
  destruct (alphabeta_negamax max_ply (make_move board m) 0
              (wf_make_move board m Hwf) (empty_cells_le_9 _))
    as (nm & Hnm & Hab).
  specialize (Hab (-100) 100 ltac:(lia)).
  destruct (move_score_small board Hwf Hs m) as (s & Hsc & Hsm & Hab').
  rewrite Hab in Hab'. inversion Hab' as [Hv].
  exists nm. split; [assumption |].
  assert (Hnm_s : nm = - s).
  { unfold small in Hsm.
    destruct (check_status (make_move board m)); lia. }
  subst nm. rewrite Z.opp_involutive. split; [assumption |].
  unfold small in Hsm. lia.
Qed.

Lemma move_score_exact_witness :
  exists nm,
    negamax max_ply (make_move (mkBoard 3 16 false) 4) 0 = Some nm /\
    move_score (mkBoard 3 16 false) 4 = Some (- nm) /\
    (nm = -1 \/ nm = 0 \/ nm = 1).
Proof.
  apply (move_score_exact (mkBoard 3 16 false) 4).
  - unfold wf_board; simpl; lia.
  - reflexivity.
Defined.

(** ** The board operations *)

(** The loops over [get_legal_moves] visit the moves of the empty cells,
    each once, from cell 0 upwards, and nothing else: no occupied cell and
    no bit above cell 8. *)
Theorem bitloop_visits_empty_cells (b : Board) :
  bitloop (get_legal_moves b)
  = map (fun i => 2 ^ i)
      (filter (StatusSpec.cell_empty (cross b) (circle b)) cells).
Proof.
  rewrite bitloop_cell_moves by apply get_legal_moves_range.
  unfold cell_moves. f_equal. apply filter_ext_in.
  intros i Hi. apply in_cells in Hi. apply testbit_legal_cell. lia.
Qed.

(** A board without an empty cell is never IN_PROGRESS, whatever its
    occupancy sets: the game loop asks no player for a move that does not
    exist. *)
Theorem full_board_not_in_progress (b : Board) :
  get_legal_moves b = 0 -> check_status b <> IN_PROGRESS.
Proof.
  intros Hfull Hs. destruct (in_progress_legal_move b Hs) as [m Hm].
  unfold legal_move in Hm. rewrite Hfull in Hm. exact Hm.
Qed.

Lemma full_board_not_in_progress_witness :
  check_status (mkBoard 341 170 false) <> IN_PROGRESS.
Proof.
  apply (full_board_not_in_progress (mkBoard 341 170 false)). reflexivity.
Defined.

(** Undoing a move and making it again gives the board back as well: the
    two operations are inverse to each other in both orders. *)
Theorem make_unmake_move (b : Board) (m : Z) :
  wf_board b -> make_move (unmake_move b m) m = b.
Proof.
  intros [Hx Ho]. destruct b as [cr ci tm]. simpl in *.
  unfold make_move, unmake_move; simpl.
  destruct tm; simpl; f_equal; now apply u16_lxor_lxor.
Qed.

Lemma make_unmake_move_witness :
  make_move (unmake_move (mkBoard 17 2 false) 16) 16 = mkBoard 17 2 false.
Proof.
  apply (make_unmake_move (mkBoard 17 2 false) 16).
  unfold wf_board; simpl; lia.
Defined.

(** ** The bot's set of best moves *)

(** On a board in progress the loop of [choose_move] leaves in [best_score]
    the greatest score of a legal move and in [best_move] the set of all the
    legal moves that reach it, none else; the set is not empty, and the
    scratch board is the board again. *)
Theorem best_moves_argmax (board : Board) :
  wf_board board -> check_status board = IN_PROGRESS ->
  exists best_move best_score,
    choose_loop (bitloop (get_legal_moves board)) board 0 (-100)
    = Some (board, best_move, best_score) /\
    best_move <> 0 /\
    (forall m, legal_move board m ->
       exists s, move_score board m = Some s /\ s <= best_score) /\
    (forall i, Z.testbit best_move i = true <->
       0 <= i <= 8 /\ legal_move board (2 ^ i) /\
       move_score board (2 ^ i) = Some best_score).
Proof.
  intros Hwf Hs.
  destruct (best_moves_spec board Hwf Hs)
    as (bm & bs & Hloop & _ & Hr & Hnz & Hmax & Hset).
  exists bm, bs. split; [assumption |]. split; [assumption |].
  split; [assumption |]. intros i. split.
  - intros Hbit.
    assert (Hi : 0 <= i <= 8).
    { destruct (Z.ltb_spec i 0) as [Hneg | Hpos];
        [rewrite Z.testbit_neg_r in Hbit by assumption; discriminate |].
      destruct (Z.ltb_spec i 9) as [Hlt | Hge]; [lia |].
      rewrite (testbit_high 9 bm i) in Hbit by lia. discriminate. }
    split; [assumption |]. apply Hset. apply set_cell_iff.
    exists i. split; [lia | auto].
  - intros (Hi & Hl & Hsc).
    assert (Hc : set_cell bm (2 ^ i) = true) by (apply Hset; auto).
    apply set_cell_iff in Hc. destruct Hc as (k & Hk & Heq & Hbit).
    apply cell_inj in Heq; [| lia | lia]. now subst k.
Qed.

Lemma best_moves_argmax_witness :
  exists best_move best_score,
    choose_loop (bitloop (get_legal_moves (mkBoard 3 16 false)))
      (mkBoard 3 16 false) 0 (-100)
    = Some (mkBoard 3 16 false, best_move, best_score) /\
    best_move <> 0 /\
    (forall m, legal_move (mkBoard 3 16 false) m ->
       exists s, move_score (mkBoard 3 16 false) m = Some s /\
                 s <= best_score) /\
    (forall i, Z.testbit best_move i = true <->
       0 <= i <= 8 /\ legal_move (mkBoard 3 16 false) (2 ^ i) /\
       move_score (mkBoard 3 16 false) (2 ^ i) = Some best_score).
Proof.
  apply (best_moves_argmax (mkBoard 3 16 false)).
  - unfold wf_board; simpl; lia.
  - reflexivity.
Defined.

(** On a board without an empty cell [choose_move] searches nothing: it
    prints that the bot loses and returns the empty bitboard, a move that
    fills no cell and only passes the turn. *)
Theorem choose_move_no_legal_move (board : Board) (raw : Z) :
  wf_board board -> get_legal_moves board = 0 ->
  choose_move board raw = Some ("Bot verliert bei perfektem Spiel"%string, 0) /\
  make_move board 0
  = mkBoard (cross board) (circle board) (negb (cross_to_move board)).
Proof.
  intros [Hx Ho] Hfull. split.
  - unfold choose_move, best_moves. rewrite Hfull. reflexivity.
  - unfold make_move. rewrite !Z.lxor_0_r, !u16_small by assumption.
    now destruct (cross_to_move board).
Qed.

Lemma choose_move_no_legal_move_witness :
  choose_move (mkBoard 341 170 false) 5
  = Some ("Bot verliert bei perfektem Spiel"%string, 0).
Proof.
  apply (choose_move_no_legal_move (mkBoard 341 170 false) 5).
  - unfold wf_board; simpl; lia.
  - reflexivity.
Defined.

(** When two or more moves are tied for the best score, the moves that
    [choose_move] returns, over all values of the engine, are the tied moves
    other than that of the highest cell, each of them for some value. *)
Theorem choose_move_returns_lower_tied (board : Board) (bm bs m : Z) :
  wf_board board -> check_status board = IN_PROGRESS ->
  best_moves board = Some (bm, bs) -> 2 <= popcount bm ->
  ((exists raw, choose_move board raw = Some (prediction bs, m)) <->
   set_cell bm m = true /\ m <> 2 ^ Z.log2 bm).
Proof.
  intros Hwf Hs Hbest Hpc.
  destruct (best_moves_spec board Hwf Hs)
    as (bm' & bs' & _ & Hbest' & Hr & Hnz & _).
  rewrite Hbest in Hbest'. inversion Hbest'; subst bm' bs'. clear Hbest'.
  split.
  - intros [raw Hc]. rewrite (choose_move_eq board raw bm bs Hbest) in Hc.
    assert (Hm : m = select_move bm (uniform_int 1 (popcount bm - 1) raw))
      by congruence.
    subst m. clear Hc. split.
    + apply select_move_set_cell; try assumption.
      intros _. apply uniform_int_range. lia.
    + apply select_move_skips_top; try assumption.
      apply uniform_int_range. lia.
  - intros [Hset Htop].
    now apply (choose_move_reaches_lower_tied board bm bs m).
Qed.

Lemma choose_move_returns_lower_tied_witness :
  (exists raw, choose_move (mkBoard 27 324 false) raw
               = Some (prediction 1, 32)) <->
  set_cell 160 32 = true /\ 32 <> 2 ^ Z.log2 160.
Proof.
  apply (choose_move_returns_lower_tied (mkBoard 27 324 false) 160 1 32).
  - unfold wf_board; simpl; lia.
  - reflexivity.
  - vm_compute. reflexivity.
  - apply Z.leb_le. vm_compute. reflexivity.
Defined.
